(** * generate-protos: a shallow embedding of internal/cmd/generate-protos/main.go

    The Go program is one file.  It either acts as a protoc plugin (when the
    environment variable RUN_AS_PROTOC_PLUGIN is set) or drives protoc over
    the local and the remote .proto files, stages the generated code in a
    temporary directory and synchronises it with the repository.

    File system effects are state passing over a finite map from paths to
    nodes; [check(err)] is a panic of an error monad that keeps the state
    reached so far, and [defer] runs its clean-up on both outcomes. *)

From Stdlib Require Import Ascii String.
From stdpp Require Import base strings list gmap sorting pretty.

(** ** Go string helpers ([strings] package) *)

Module strings.

(** [strings.HasPrefix]. *)
Fixpoint HasPrefix (s pre : string) : bool :=
  match pre, s with
  | "", _ => true
  | String a pre', String b s' => if decide (a = b) then HasPrefix s' pre' else false
  | String _ _, "" => false
  end.

(** [strings.HasSuffix]: a prefix test on the reversed strings. *)
Definition HasSuffix (s suf : string) : bool :=
  HasPrefix (String.rev s) (String.rev suf).

(** Drop the first [n] bytes. *)
Fixpoint drop (n : nat) (s : string) : string :=
  match n, s with
  | O, _ => s
  | S n', String _ s' => drop n' s'
  | S _, "" => ""
  end.

(** [strings.TrimSuffix]. *)
Definition TrimSuffix (s suf : string) : string :=
  if HasSuffix s suf
  then String.rev (drop (String.length suf) (String.rev s))
  else s.

(** [strings.Split] on a one-byte separator: the pieces between the
    separators, empty pieces included; [cur] is the piece being read,
    reversed. *)
Fixpoint Split_go (sep : ascii) (cur : string) (s : string) : list string :=
  match s with
  | "" => [String.rev cur]
  | String a s' =>
      if decide (a = sep)
      then String.rev cur :: Split_go sep "" s'
      else Split_go sep (String a cur) s'
  end.
Definition Split (s : string) (sep : ascii) : list string := Split_go sep "" s.

(** [strings.Join]. *)
Fixpoint Join (elems : list string) (sep : string) : string :=
  match elems with
  | [] => ""
  | [x] => x
  | x :: rest => x +:+ sep +:+ Join rest sep
  end.

End strings.

(** [path.Base]: the last element of a slash-separated path; trailing
    slashes are removed first, the empty path gives ".", a path of slashes
    only gives "/". *)
Module path.

Fixpoint strip_slashes (r : string) : string :=
  match r with
  | String "/" r' => strip_slashes r'
  | _ => r
  end.

(** The bytes of [r] before its first slash. *)
Fixpoint upto_slash (r : string) : string :=
  match r with
  | "" => ""
  | String "/" _ => ""
  | String a r' => String a (upto_slash r')
  end.

Definition Base (p : string) : string :=
  if decide (p = "") then "."
  else
    let r := strip_slashes (String.rev p) in
    if decide (r = "") then "/" else String.rev (upto_slash r).

End path.

(** ** Descriptors ([protoreflect] and [protogen] views of a .proto file) *)

Module protoreflect.

Inductive Kind :=
  | BoolKind | EnumKind | Int32Kind | Sint32Kind | Uint32Kind
  | Int64Kind | Sint64Kind | Uint64Kind | Sfixed32Kind | Fixed32Kind
  | FloatKind | Sfixed64Kind | Fixed64Kind | DoubleKind
  | StringKind | BytesKind | MessageKind | GroupKind.

Inductive Cardinality := Optional | Required | Repeated.

(** What [generateFieldNumbers] reads of a field descriptor [fd]:
    [fd.Kind()], [fd.Number()], [fd.Cardinality()], [fd.Enum().FullName()]
    and [fd.Message().FullName()].  The last two are only read for the kinds
    that carry an enum, respectively a message, descriptor. *)
Record FieldDescriptor := {
  fd_Kind : Kind;
  fd_Number : Z;
  fd_Cardinality : Cardinality;
  fd_Enum_FullName : string;
  fd_Message_FullName : string;
}.

(** The [String] methods of [Kind] and [Cardinality] are declared in the
    protoreflect package, outside this command: they are parameters. *)
Class Names := {
  Kind_String : Kind → string;
  Cardinality_String : Cardinality → string;
}.

End protoreflect.

Module protogen.
Import protoreflect.

Record Field := {
  field_GoName : string;
  field_Desc : FieldDescriptor;
}.

(** [message.GoIdent.GoName], [message.Desc.FullName()], [message.Fields]
    and [message.Messages] (the nested message declarations). *)
#[warnings="-register-all"]
Inductive Message :=
  | Build_Message (GoName : string) (FullName : string)
                  (Fields : list Field) (Messages : list Message).

Definition msg_GoName (m : Message) : string :=
  match m with Build_Message n _ _ _ => n end.
Definition msg_FullName (m : Message) : string :=
  match m with Build_Message _ n _ _ => n end.
Definition msg_Fields (m : Message) : list Field :=
  match m with Build_Message _ _ fs _ => fs end.
Definition msg_Messages (m : Message) : list Message :=
  match m with Build_Message _ _ _ ms => ms end.

Record File := {
  Desc_Path : string;
  Desc_Package : string;
  Generate : bool;
  Messages : list Message;
}.

(** A generated file: its name, its Go import path, and the lines written
    to it with [g.P], oldest first. *)
Record GeneratedFile := {
  filename : string;
  goImportPath : string;
  buf : list string;
}.

(** What the plugin hands back to protoc, in the order it was produced.
    [gengo.GenerateFile] and [gengogrpc.GenerateFile] are the two code
    generators of other packages: a call to one of them is recorded with the
    path of the file it was applied to.  A file made with
    [gen.NewGeneratedFile] is recorded with its contents. *)
Inductive Emission :=
  | gengo_GenerateFile (file : string)
  | gengogrpc_GenerateFile (file : string)
  | NewGeneratedFile (g : GeneratedFile).

(** [protogen.Plugin]: the files of the request and the response so far.
    [GenerateVersionMarkers] is the package variable of [gengo] that the
    plugin clears before each call. *)
Record Plugin := {
  Files : list File;
  response : list Emission;
  GenerateVersionMarkers : bool;
}.

(** [g.P(v...)]: the operands printed one after the other, then a newline. *)
Definition P (g : list string) (v : list string) : list string :=
  g ++ [strings.Join v ""].

End protogen.

(** ** Plugin mode *)

Module plugin.
Import protoreflect protogen.

Definition generatedPreamble : list string := [
  "// Copyright 2019 The Go Authors. All rights reserved.";
  "// Use of this source code is governed by a BSD-style";
  "// license that can be found in the LICENSE file.";
  "";
  "// Code generated by generate-protos. DO NOT EDIT.";
  ""
].

Section with_names.
Context `{!Names}.

(** The [typeName] of the inner loop of [processMessages]. *)
Definition typeName (fd : FieldDescriptor) : string :=
  match fd_Kind fd with
  | EnumKind => fd_Enum_FullName fd
  | MessageKind | GroupKind => fd_Message_FullName fd
  | k => Kind_String k
  end.

(** The body of the loop over [message.Fields]. *)
Definition processField (message : Message) (g : list string) (field : Field)
  : list string :=
  let fd := field_Desc field in
  P g [msg_GoName message; "_"; field_GoName field; "="; pretty (fd_Number fd);
       "// "; Cardinality_String (fd_Cardinality fd); " "; typeName fd].

(** The body of the loop of [processMessages], for one message; the
    recursive call on [message.Messages] is the inner fold. *)
Fixpoint processMessage (g : list string) (message : Message) : list string :=
  let g := P g ["// Field numbers for "; msg_FullName message; "."] in
  let g := P g ["const ("] in
  let g := fold_left (processField message) (msg_Fields message) g in
  let g := P g [")"] in
  match message with
  | Build_Message _ _ _ nested => fold_left processMessage nested g
  end.

Definition processMessages (messages : list Message) (g : list string)
  : list string :=
  fold_left processMessage messages g.

(** [generateFieldNumbers].  The generated file is written with [g.P] right
    after [gen.NewGeneratedFile] made it and nothing else is emitted in
    between, so it is recorded once, complete. *)
Definition generateFieldNumbers (modulePath : string) (gen : Plugin) (file : File)
  : Plugin :=
  if decide (Desc_Package file ≠ "google.protobuf") then gen
  else
    let importPath := modulePath +:+ "/internal/fieldnum" in
    let base := strings.TrimSuffix (path.Base (Desc_Path file)) ".proto" in
    let g := fold_left (λ g s, P g [s]) generatedPreamble [] in
    let g := P g ["package "; path.Base importPath] in
    let g := P g [""] in
    let g := processMessages (Messages file) g in
    {| Files := Files gen;
       response := response gen ++
         [NewGeneratedFile {| filename := importPath +:+ "/" +:+ base +:+ "_gen.go";
                              goImportPath := importPath;
                              buf := g |}];
       GenerateVersionMarkers := GenerateVersionMarkers gen |}.

(** The [switch plugin] of the callback given to [protogen.Run]. *)
Definition dispatch (modulePath : string) (plugin : string) (gen : Plugin)
  (file : File) : Plugin :=
  if decide (plugin = "go") then
    let gen := {| Files := Files gen; response := response gen;
                  GenerateVersionMarkers := false |} in
    let gen := {| Files := Files gen;
                  response := response gen ++ [gengo_GenerateFile (Desc_Path file)];
                  GenerateVersionMarkers := GenerateVersionMarkers gen |} in
    generateFieldNumbers modulePath gen file
  else if decide (plugin = "gogrpc") then
    {| Files := Files gen;
       response := response gen ++ [gengogrpc_GenerateFile (Desc_Path file)];
       GenerateVersionMarkers := GenerateVersionMarkers gen |}
  else gen.

(** The callback given to [protogen.Run]: the outer loop is over the names
    in RUN_AS_PROTOC_PLUGIN, the inner loop over [gen.Files]. *)
Definition run_plugins (modulePath : string) (plugins : string) (gen : Plugin)
  : Plugin :=
  fold_left
    (λ gen plugin,
       fold_left
         (λ gen file, if Generate file then dispatch modulePath plugin gen file
                      else gen)
         (Files gen) gen)
    (strings.Split plugins ",") gen.

End with_names.
End plugin.

(** ** The regular expression of the legacy directories *)

Module regexp.

(** Every atom of [legacy/proto[23]_[0-9]{8}_[0-9a-f]{8}/] matches one
    byte, so the compiled expression is the list of its byte classes. *)
Definition lit (c : ascii) : ascii → bool := λ a, bool_decide (a = c).
Definition range (lo hi : ascii) : ascii → bool :=
  λ a, (N_of_ascii lo <=? N_of_ascii a)%N && (N_of_ascii a <=? N_of_ascii hi)%N.
Definition either (c1 c2 : ascii → bool) : ascii → bool := λ a, c1 a || c2 a.

Fixpoint lits (s : string) : list (ascii → bool) :=
  match s with
  | "" => []
  | String a s' => lit a :: lits s'
  end.

(** Does the expression match a prefix of [s]? *)
Fixpoint match_here (rx : list (ascii → bool)) (s : string) : bool :=
  match rx, s with
  | [], _ => true
  | c :: rx', String a s' => c a && match_here rx' s'
  | _ :: _, "" => false
  end.

(** [Regexp.MatchString]: does the expression match anywhere in [s]? *)
Fixpoint MatchString (rx : list (ascii → bool)) (s : string) : bool :=
  match_here rx s ||
  match s with
  | "" => false
  | String _ s' => MatchString rx s'
  end.

End regexp.

Definition excludeRx : list (ascii → bool) :=
  regexp.lits "legacy/proto"
  ++ [regexp.either (regexp.lit "2") (regexp.lit "3")]
  ++ [regexp.lit "_"]
  ++ replicate 8 (regexp.range "0" "9")
  ++ [regexp.lit "_"]
  ++ replicate 8 (regexp.either (regexp.range "0" "9") (regexp.range "a" "f"))
  ++ [regexp.lit "/"].

(** ** The file system *)

(** A path is the list of its elements below the root directory ["/"].
    All paths the program handles are absolute and clean. *)
Abbreviation Path := (list string).

Inductive Node := File (content : string) | Dir.

Global Instance Node_eq_dec : EqDecision Node.
Proof. solve_decision. Defined.

Abbreviation FS := (gmap (list string) Node).

Inductive Error :=
  | PathError (op : string) (p : Path)
  | RelError (base target : Path)
  | ExitError (output : string)
  | FormatError
  | PanicValue (v : string).

Inductive Result (A : Type) := Ok (a : A) | Panic (e : Error).
Global Arguments Ok {A} a.
Global Arguments Panic {A} e.

Module filepath.

(** The path as the string the program sees. *)
Definition String (p : Path) : string := "/" +:+ strings.Join p "/".

(** A relative path as a string; the empty one is ["."]. *)
Definition ToSlash (rel : Path) : string :=
  match rel with [] => "." | _ => strings.Join rel "/" end.

(** [filepath.FromSlash] of a literal slash-separated path, as elements. *)
Definition FromSlash (s : string) : Path :=
  filter (λ c, c ≠ "") (strings.Split s "/").

(** [filepath.Join(base, rel)]. *)
Definition Join (base rel : Path) : Path := base ++ rel.

(** [filepath.Dir]. *)
Definition Dir (p : Path) : Path := removelast p.

(** [filepath.Rel(base, target)] for a target at or below [base].  For
    any other target Go answers with a path through [..], which paths
    made of elements do not have; no walk of this program produces one. *)
Fixpoint Rel (base target : Path) : option Path :=
  match base, target with
  | [], _ => Some target
  | b :: base', t :: target' => if decide (b = t) then Rel base' target' else None
  | _ :: _, [] => None
  end.

(** The order in which [filepath.Walk] visits: a directory before its
    entries, the entries by name. *)
Fixpoint lexical (p q : Path) : bool :=
  match p, q with
  | [], _ => true
  | _ :: _, [] => false
  | a :: p', b :: q' =>
      if decide (a = b) then lexical p' q' else bool_decide (a ≤ b)%string
  end.

(** The paths [filepath.Walk(root, fn)] calls [fn] on.  A root that does
    not exist is still handed to [fn] (with the error, which the callbacks
    of this program ignore).  The tree is listed as it is when the walk
    starts; the library reads each directory when it enters it, so the
    two agree for a callback that leaves the walked tree as it is, and
    the theorems about walks that write say so in a hypothesis. *)
Definition below (root : Path) (fs : FS) : FS :=
  filter (λ kv, root `prefix_of` kv.1) fs.

Definition Walk (root : Path) (fs : FS) : list Path :=
  if decide (is_Some (fs !! root))
  then merge_sort (λ p q, lexical p q) (elements (dom (below root fs)))
  else [root].

End filepath.

Module os.

Definition is_dir (fs : FS) (p : Path) : bool :=
  match p, fs !! p with
  | [], _ => true
  | _, Some Dir => true
  | _, _ => false
  end.

(** [ioutil.ReadFile]: a missing path fails at the open; a directory is
    opened and fails at the read. *)
Definition ReadFile (p : Path) (fs : FS) : Result string :=
  match fs !! p with
  | Some (File b) => Ok b
  | Some Dir => Panic (PathError "read" p)
  | None => Panic (PathError "open" p)
  end.

(** [ioutil.WriteFile]: the parent must be a directory and the path must
    not be one. *)
Definition WriteFile (p : Path) (b : string) (fs : FS) : Result FS :=
  match fs !! p with
  | Some Dir => Panic (PathError "open" p)
  | _ => if is_dir fs (filepath.Dir p) then Ok (<[p := File b]> fs)
         else Panic (PathError "open" p)
  end.

(** [os.MkdirAll]: makes the directory [pre ++ rest] and its missing
    parents; fails when one of them is a regular file. *)
Fixpoint MkdirAll_from (pre rest : Path) (fs : FS) : Result FS :=
  match rest with
  | [] => Ok fs
  | c :: rest' =>
      let p : Path := pre ++ [c] in
      match fs !! p with
      | Some (File _) => Panic (PathError "mkdir" p)
      | Some Dir => MkdirAll_from p rest' fs
      | None => MkdirAll_from p rest' (<[p := Dir]> fs)
      end
  end.
Definition MkdirAll (p : Path) (fs : FS) : Result FS := MkdirAll_from [] p fs.

(** [os.RemoveAll]: the path and everything below it. *)
Definition RemoveAll (p : Path) (fs : FS) : FS :=
  filter (λ kv, ¬ p `prefix_of` kv.1) fs.

(** [ioutil.TempDir(dir, prefix)]: a new directory [dir/prefix<random>].
    [random] is the suffix the library draws; a name that is taken, or a
    parent that is no directory, is an error. *)
Definition TempDir (dir : Path) (pre random : string) (fs : FS)
  : Result (Path * FS) :=
  let p : Path := dir ++ [pre +:+ random] in
  match fs !! p with
  | Some _ => Panic (PathError "mkdir" p)
  | None => if is_dir fs dir then Ok (p, <[p := Dir]> fs)
            else Panic (PathError "mkdir" p)
  end.

End os.

(** ** The world of a batch run, panics and [defer] *)

(** One call [protoc(plugins, args...)], with the error of the command
    ([None] when it succeeded). *)
Record Invocation := {
  inv_plugins : string;
  inv_args : list string;
  inv_err : option Error;
}.

(** What a finished command leaves: the file system, its combined output
    and its error, if it failed. *)
Record Finished := {
  cmd_fs : FS;
  cmd_out : string;
  cmd_err : option Error;
}.

(** The Go library functions and the programs whose results the generator
    consumes without looking inside: [%q] formatting, [format.Source],
    [path.Join] and [filepath.Join] on strings, the [protoc] and [diff]
    programs, and the order in which [range] visits a Go map: any
    arrangement of its entries, picked anew each time a map is ranged
    over ([map_range n] is the order of the [n]-th range of the run). *)
Class Externals := {
  Quote : string → string;
  format_Source : string → Result string;
  path_Join : list string → string;
  protoc_exec : string → list string → FS → Finished;
  diff_exec : list string → FS → list string;
  map_range : ∀ A : Type, nat → list A → list A;
  map_range_Permutation : ∀ (A : Type) (n : nat) (l : list A), map_range A n l ≡ₚ l;
}.
Global Arguments map_range {_ _} _ _.

(** The package variables set by [init] and by the flags. *)
Record Globals := {
  run : bool;
  protoRoot : string;
  repoRoot : Path;
  modulePath : string;
  argv0 : string;
}.

(** The world of a run: the file system, what was printed, the calls of
    the toolchain, and how many times a map has been ranged over. *)
Record World := {
  fs : FS;
  stdout : list string;
  protoc_log : list Invocation;
  ranges : nat;
}.

Definition set_fs (w : World) (fs' : FS) : World :=
  {| fs := fs'; stdout := stdout w; protoc_log := protoc_log w; ranges := ranges w |}.
Definition print (w : World) (lines : list string) : World :=
  {| fs := fs w; stdout := stdout w ++ lines; protoc_log := protoc_log w;
     ranges := ranges w |}.
Definition log_protoc (w : World) (i : Invocation) : World :=
  {| fs := fs w; stdout := stdout w; protoc_log := protoc_log w ++ [i];
     ranges := ranges w |}.
Definition count_range (w : World) : World :=
  {| fs := fs w; stdout := stdout w; protoc_log := protoc_log w;
     ranges := S (ranges w) |}.

(** A computation changes the world and either returns or panics; the
    world reached at the panic is kept. *)
Definition M (A : Type) : Type := World → World * Result A.

Global Instance M_ret : MRet M := λ A a w, (w, Ok a).
Global Instance M_bind : MBind M := λ A B k m w,
  match m w with
  | (w', Ok a) => k a w'
  | (w', Panic e) => (w', Panic e)
  end.

Definition panic {A} (e : Error) : M A := λ w, (w, Panic e).

(** [defer cleanup] before [body]: the clean-up runs when [body] returns
    and when it panics, and the panic goes on afterwards. *)
Definition defer {A} (cleanup : World → World) (body : M A) : M A := λ w,
  let '(w', r) := body w in (cleanup w', r).

(** [v, err := f(); check(err)] for a function without effect. *)
Definition check {A} (r : Result A) : M A := λ w, (w, r).

(** [check(f(...))] for a library call that changes the file system. *)
Definition check_fs (f : FS → Result FS) : M unit := λ w,
  match f (fs w) with
  | Ok fs' => (set_fs w fs', Ok tt)
  | Panic e => (w, Panic e)
  end.

Definition check_Rel (base target : Path) : M Path :=
  check (match filepath.Rel base target with
         | Some rel => Ok rel
         | None => Panic (RelError base target)
         end).

(** A [for ... range] loop over a list that threads the loop's variables. *)
Fixpoint foldM {S A} (f : S → A → M S) (s : S) (l : list A) : M S :=
  match l with
  | [] => mret s
  | x :: l' => s' ← f s x; foldM f s' l'
  end.

Definition forM {A} (l : list A) (f : A → M unit) : M unit :=
  foldM (λ _ x, f x) tt l.

(** [filepath.Walk(root, fn)] with a callback that always returns nil. *)
Definition Walk {S} (root : Path) (fn : S → Path → M S) (s : S) : M S :=
  λ w, foldM fn s (filepath.Walk root (fs w)) w.

(** ** The batch generator *)

Definition protoPackages : list (string * string) := [
  ("google/protobuf/field_mask.proto", "google.golang.org/protobuf/internal/testprotos/fieldmaskpb");
  ("google/protobuf/any.proto", "google.golang.org/protobuf/types/known/anypb");
  ("google/protobuf/duration.proto", "google.golang.org/protobuf/types/known/durationpb");
  ("google/protobuf/empty.proto", "google.golang.org/protobuf/types/known/emptypb");
  ("google/protobuf/struct.proto", "google.golang.org/protobuf/types/known/structpb");
  ("google/protobuf/timestamp.proto", "google.golang.org/protobuf/types/known/timestamppb");
  ("google/protobuf/wrappers.proto", "google.golang.org/protobuf/types/known/wrapperspb");
  ("google/protobuf/descriptor.proto", "google.golang.org/protobuf/types/descriptorpb");
  ("google/protobuf/compiler/plugin.proto", "google.golang.org/protobuf/types/pluginpb");
  ("conformance/conformance.proto", "google.golang.org/protobuf/internal/testprotos/conformance");
  ("google/protobuf/test_messages_proto2.proto", "google.golang.org/protobuf/internal/testprotos/conformance");
  ("google/protobuf/test_messages_proto3.proto", "google.golang.org/protobuf/internal/testprotos/conformance")
].

(** An entry of [dirs] in [generateLocalProtos]; the two maps to [bool]
    only ever hold [true], so they are the sets of their keys. *)
Record Job := {
  job_path : string;
  grpcPlugin : bool;
  annotateFor : gset string;
  exclude : gset string;
}.

Definition dirs : list Job := [
  {| job_path := "cmd/protoc-gen-go/testdata"; grpcPlugin := false;
     annotateFor := {["cmd/protoc-gen-go/testdata/annotations/annotations.proto"]};
     exclude := ∅ |};
  {| job_path := "cmd/protoc-gen-go-grpc/testdata"; grpcPlugin := true;
     annotateFor := ∅; exclude := ∅ |};
  {| job_path := "internal/testprotos"; grpcPlugin := false;
     annotateFor := ∅;
     exclude := {["internal/testprotos/irregular/irregular.proto"]} |}
].

(** The [files] of [generateRemoteProtos]: prefix and path. *)
Definition files : list (string * string) := [
  ("", "conformance/conformance.proto");
  ("benchmarks", "benchmarks.proto");
  ("benchmarks", "datasets/google_message1/proto2/benchmark_message1_proto2.proto");
  ("benchmarks", "datasets/google_message1/proto3/benchmark_message1_proto3.proto");
  ("benchmarks", "datasets/google_message2/benchmark_message2.proto");
  ("benchmarks", "datasets/google_message3/benchmark_message3.proto");
  ("benchmarks", "datasets/google_message3/benchmark_message3_1.proto");
  ("benchmarks", "datasets/google_message3/benchmark_message3_2.proto");
  ("benchmarks", "datasets/google_message3/benchmark_message3_3.proto");
  ("benchmarks", "datasets/google_message3/benchmark_message3_4.proto");
  ("benchmarks", "datasets/google_message3/benchmark_message3_5.proto");
  ("benchmarks", "datasets/google_message3/benchmark_message3_6.proto");
  ("benchmarks", "datasets/google_message3/benchmark_message3_7.proto");
  ("benchmarks", "datasets/google_message3/benchmark_message3_8.proto");
  ("benchmarks", "datasets/google_message4/benchmark_message4.proto");
  ("benchmarks", "datasets/google_message4/benchmark_message4_1.proto");
  ("benchmarks", "datasets/google_message4/benchmark_message4_2.proto");
  ("benchmarks", "datasets/google_message4/benchmark_message4_3.proto");
  ("src", "google/protobuf/any.proto");
  ("src", "google/protobuf/compiler/plugin.proto");
  ("src", "google/protobuf/descriptor.proto");
  ("src", "google/protobuf/duration.proto");
  ("src", "google/protobuf/empty.proto");
  ("src", "google/protobuf/field_mask.proto");
  ("src", "google/protobuf/struct.proto");
  ("src", "google/protobuf/test_messages_proto2.proto");
  ("src", "google/protobuf/test_messages_proto3.proto");
  ("src", "google/protobuf/timestamp.proto");
  ("src", "google/protobuf/wrappers.proto")
].

Section batch.
Context `{!Externals}.
Variable G : Globals.

(** [for ... := range m] over a Go map with the given entries. *)
Definition range_map {A} (entries : list A) : M (list A) := λ w,
  (count_range w, Ok (map_range (ranges w) entries)).

(** [protoMapOpt]: one [M<file>=<package>] per entry of [protoPackages],
    in the order in which this call ranges over the map. *)
Definition protoMapOpt : M string :=
  ranged ← range_map protoPackages;
  mret (strings.Join (map (λ kv, "M" +:+ kv.1 +:+ "=" +:+ kv.2) ranged) ",").

(** [protoc]: runs the compiler with this binary as its plugin; a failure
    is printed with the command line and panics. *)
Definition protoc (plugins : string) (args : list string) : M unit := λ w,
  let cmd_Args := ["protoc"; "--plugin=protoc-gen-go=" +:+ argv0 G] ++ args in
  let finished := protoc_exec plugins cmd_Args (fs w) in
  let w := log_protoc (set_fs w (cmd_fs finished))
             {| inv_plugins := plugins; inv_args := args;
                inv_err := cmd_err finished |} in
  match cmd_err finished with
  | Some err =>
      (print w ["executing: " +:+ strings.Join cmd_Args " "; cmd_out finished], Panic err)
  | None => (w, Ok tt)
  end.

(** [copyFile]. *)
Definition copyFile (dstPath srcPath : Path) : M unit :=
  b ← (λ w, check (os.ReadFile srcPath (fs w)) w);
  check_fs (os.MkdirAll (filepath.Dir dstPath));;
  check_fs (os.WriteFile dstPath b).

(** The callback of the walk in [syncOutput]. *)
Definition syncFn (dstDir srcDir : Path) (_ : unit) (srcPath : Path) : M unit :=
  if negb (strings.HasSuffix (filepath.String srcPath) ".go")
     && negb (strings.HasSuffix (filepath.String srcPath) ".meta")
  then mret tt
  else
    relPath ← check_Rel srcDir srcPath;
    let dstPath := filepath.Join dstDir relPath in
    if run G then
      (λ w, (print w ["# " +:+ filepath.ToSlash relPath], Ok tt));;
      copyFile dstPath srcPath
    else
      λ w, (print w (diff_exec [filepath.String dstPath; filepath.String srcPath;
                                "-N"; "-u"] (fs w)), Ok tt).

(** [syncOutput]. *)
Definition syncOutput (dstDir srcDir : Path) : M unit :=
  Walk srcDir (syncFn dstDir srcDir) tt.

(** The choice of plugins in the walk of [generateLocalProtos]. *)
Definition local_plugins (d : Job) : string :=
  let plugins := "go" in
  if grpcPlugin d then plugins +:+ ",gogrpc" else plugins.

(** The callback of the walk in [generateLocalProtos]; [subDirs] is the
    map the callback fills. *)
Definition localFn (d : Job) (dstDir srcDir : Path) (subDirs : gset Path)
  (srcPath : Path) : M (gset Path) :=
  if negb (strings.HasSuffix (filepath.String srcPath) ".proto")
     || regexp.MatchString excludeRx (filepath.String srcPath)
  then mret subDirs
  else
    relPath ← check_Rel (repoRoot G) srcPath;
    srcRelPath ← check_Rel srcDir srcPath;
    let subDirs := {[filepath.Dir srcRelPath]} ∪ subDirs in
    if decide (filepath.ToSlash relPath ∈ exclude d) then mret subDirs
    else
      mapOpt ← protoMapOpt;
      let opts := "paths=source_relative," +:+ mapOpt in
      let opts := if decide (filepath.ToSlash relPath ∈ annotateFor d)
                  then opts +:+ ",annotate_code" else opts in
      protoc (local_plugins d)
        ["-I" +:+ path_Join [protoRoot G; "src"];
         "-I" +:+ filepath.String (repoRoot G);
         "--go_out=" +:+ opts +:+ ":" +:+ filepath.String dstDir;
         filepath.ToSlash relPath];;
      mret subDirs.

(** One import line of the generated test. *)
Definition import_line (d : Job) (sd : Path) : string :=
  "_ " +:+ Quote (path_Join [modulePath G; job_path d; filepath.ToSlash sd]).

(** The sorted import lines, for the sub-directories in the order [range]
    gave them. *)
Definition gen_test_imports (d : Job) (ranged : list Path) : list string :=
  merge_sort String.le (map (import_line d) ranged).

(** The source handed to [format.Source]. *)
Definition gen_test_source (d : Job) (ranged : list Path) : string :=
  strings.Join
    (plugin.generatedPreamble ++
     ["package main"; "";
      "import (" +:+ strings.Join (gen_test_imports d ranged) (String "010" "") +:+ ")"])
    (String "010" "").

Definition gen_test_path (tmpDir : Path) (d : Job) : Path :=
  filepath.Join tmpDir (filepath.FromSlash (job_path d +:+ "/gen_test.go")).

(** The part of the loop body after the walk. *)
Definition gen_test (tmpDir : Path) (d : Job) (subDirs : gset Path) : M unit :=
  if decide (path.Base (job_path d) = "testdata") then
    ranged ← range_map (elements subDirs);
    let s := gen_test_source d ranged in
    b ← check (format_Source s);
    check_fs (os.WriteFile (gen_test_path tmpDir d) b)
  else mret tt.

(** The body of the loop over [dirs]. *)
Definition generateLocalDir (tmpDir : Path) (d : Job) : M unit :=
  let dstDir := tmpDir in
  check_fs (os.MkdirAll dstDir);;
  let srcDir := filepath.Join (repoRoot G) (filepath.FromSlash (job_path d)) in
  subDirs ← Walk srcDir (localFn d dstDir srcDir) ∅;
  gen_test tmpDir d subDirs.

(** [ioutil.TempDir(repoRoot, "tmp")] followed by [check]. *)
Definition TempDir (random : string) : M Path := λ w,
  match os.TempDir (repoRoot G) "tmp" random (fs w) with
  | Ok (p, fs') => (set_fs w fs', Ok p)
  | Panic e => (w, Panic e)
  end.

Definition RemoveAll (p : Path) (w : World) : World :=
  set_fs w (os.RemoveAll p (fs w)).

(** [generateLocalProtos]; [random] names the temporary directory. *)
Definition generateLocalProtos (random : string) : M unit :=
  tmpDir ← TempDir random;
  defer (RemoveAll tmpDir)
    (forM dirs (generateLocalDir tmpDir);;
     syncOutput (repoRoot G) tmpDir).

Definition field_mask_new (tmpDir : Path) : Path :=
  filepath.Join tmpDir (filepath.FromSlash
    "google.golang.org/protobuf/internal/testprotos/fieldmaskpb/field_mask.pb.go").
Definition field_mask_old (tmpDir : Path) : Path :=
  filepath.Join tmpDir (filepath.FromSlash
    "google.golang.org/genproto/protobuf/field_mask/field_mask.pb.go").

(** The loop over [files] in [generateRemoteProtos]. *)
Definition generateRemoteFiles (tmpDir : Path) : M unit :=
  forM files (λ f,
    mapOpt ← protoMapOpt;
    protoc "go" ["-I" +:+ path_Join [protoRoot G; f.1];
                 "--go_out=" +:+ mapOpt +:+ ":" +:+ filepath.String tmpDir;
                 f.2]).

(** The special case of field_mask.proto. *)
Definition copy_field_mask (tmpDir : Path) : M unit :=
  copyFile (field_mask_new tmpDir) (field_mask_old tmpDir).

(** [generateRemoteProtos]. *)
Definition generateRemoteProtos (random : string) : M unit :=
  tmpDir ← TempDir random;
  defer (RemoveAll tmpDir)
    (generateRemoteFiles tmpDir;;
     copy_field_mask tmpDir;;
     syncOutput (repoRoot G)
       (filepath.Join tmpDir (filepath.FromSlash (modulePath G)))).

(** [main], after the flags are parsed into [run] and [protoRoot];
    [random1] and [random2] name the two temporary directories. *)
Definition main (random1 random2 : string) : M unit :=
  if decide (protoRoot G = "") then panic (PanicValue "protobuf source root is not set")
  else
    generateLocalProtos random1;;
    generateRemoteProtos random2.

End batch.

(** ** The process *)

(** How the process ends: as a plugin it leaves with status 0 and the
    response written to standard output, and [main] never starts;
    otherwise [main] runs to its end or to a panic. *)
Inductive Ending :=
  | Exit (status : Z) (written : list protogen.Emission)
  | Main (w : World) (r : Result unit).

(** [init] and then [main].  [RUN_AS_PROTOC_PLUGIN] is the value of the
    environment variable, [gen] the decoded request. *)
Definition process `{!protoreflect.Names} `{!Externals} (G : Globals)
  (RUN_AS_PROTOC_PLUGIN : string) (gen : protogen.Plugin)
  (random1 random2 : string) (w : World) : Ending :=
  if decide (RUN_AS_PROTOC_PLUGIN ≠ "") then
    Exit 0 (protogen.response
              (plugin.run_plugins (modulePath G) RUN_AS_PROTOC_PLUGIN gen))
  else
    let '(w', r) := main G random1 random2 w in Main w' r.

(** * The vocabulary of the statements *)

(** ** Plugin mode *)

Module plugin_terms.
Import protoreflect protogen plugin.

(** The messages in the order of a depth-first visit: a message, then the
    messages nested in it, then its next sibling. *)
Fixpoint depth_first (m : Message) : list Message :=
  m :: match m with
       | Build_Message _ _ _ nested => flat_map depth_first nested
       end.

Section with_names.
Context `{!Names}.

(** A field is enum-typed when its kind is enum, and message-typed when
    its kind is message or group: these are the kinds for which the
    descriptor carries an enum, respectively a message, descriptor. *)
Definition enum_typed (fd : FieldDescriptor) : bool :=
  match fd_Kind fd with EnumKind => true | _ => false end.

Definition message_typed (fd : FieldDescriptor) : bool :=
  match fd_Kind fd with MessageKind | GroupKind => true | _ => false end.

(** The type name as the extractor is described: the full name of the
    enum or message for a field so typed, the name of the kind otherwise. *)
Definition described_type_name (fd : FieldDescriptor) : string :=
  if enum_typed fd then fd_Enum_FullName fd
  else if message_typed fd then fd_Message_FullName fd
  else Kind_String (fd_Kind fd).

(** The constant of one field, as the extractor is described:
    [<MessageGoName>_<FieldGoName>=<number>// <cardinality> <type name>]. *)
Definition constant (m : Message) (f : Field) : string :=
  msg_GoName m +:+ "_" +:+ field_GoName f +:+ "=" +:+
  pretty (fd_Number (field_Desc f)) +:+ "// " +:+
  Cardinality_String (fd_Cardinality (field_Desc f)) +:+ " " +:+
  described_type_name (field_Desc f).

(** The lines of one message: a comment, and a const block with one
    constant per field, in the order of the fields. *)
Definition const_block (m : Message) : list string :=
  ["// Field numbers for " +:+ msg_FullName m +:+ "."; "const ("]
  ++ map (constant m) (msg_Fields m) ++ [")"].

(** The file of constants made for a description file: its name and
    import path under [internal/fieldnum], the preamble, the package
    clause, and the const blocks of the messages in depth-first order. *)
Definition fieldnum_file (modulePath : string) (file : File) : GeneratedFile :=
  {| filename := (modulePath +:+ "/internal/fieldnum") +:+ "/" +:+
                 strings.TrimSuffix (path.Base (Desc_Path file)) ".proto" +:+ "_gen.go";
     goImportPath := modulePath +:+ "/internal/fieldnum";
     buf := generatedPreamble ++ ["package fieldnum"; ""] ++
            flat_map const_block (flat_map depth_first (Messages file)) |}.

(** What the extractor adds to the response for one file. *)
Definition fieldnum_emitted (modulePath : string) (file : File) : list Emission :=
  if decide (Desc_Package file = "google.protobuf")
  then [NewGeneratedFile (fieldnum_file modulePath file)]
  else [].

(** What one name of RUN_AS_PROTOC_PLUGIN makes of one file: [go] runs
    the Go generator and then the field-number extractor, [gogrpc] runs the
    gRPC generator, and any other name does nothing. *)
Definition emitted (modulePath plugin : string) (file : File) : list Emission :=
  if decide (plugin = "go")
  then gengo_GenerateFile (Desc_Path file) :: fieldnum_emitted modulePath file
  else if decide (plugin = "gogrpc") then [gengogrpc_GenerateFile (Desc_Path file)]
  else [].

(** The calls name by name: for each name in list order, the files marked
    for generation in request order. *)
Definition by_plugin (modulePath : string) (plugins : list string)
  (files : list File) : list Emission :=
  flat_map (λ plugin,
    flat_map (λ file, if Generate file then emitted modulePath plugin file else [])
      files) plugins.

(** The calls file by file, as the adapter is described: for each file
    marked for generation in request order, the names in list order. *)
Definition by_file (modulePath : string) (plugins : list string)
  (files : list File) : list Emission :=
  flat_map (λ file,
    if Generate file then flat_map (λ plugin, emitted modulePath plugin file) plugins
    else []) files.

End with_names.
End plugin_terms.

(** ** The batch generator *)

Module batch_terms.

(** All the calls succeeded. *)
Definition ok_calls (l : list Invocation) : Prop :=
  Forall (λ i, inv_err i = None) l.

(** The calls [new] made by a computation that ended with [r]: all
    succeeded, except that the last one may have failed, and then the
    computation panicked with its error. *)
Definition stops {A} (new : list Invocation) (r : Result A) : Prop :=
  match r with
  | Ok _ => ok_calls new
  | Panic e => ok_calls new ∨
               ∃ l i, new = l ++ [i] ∧ ok_calls l ∧ inv_err i = Some e
  end.

(** From every world, [m] adds calls to the log that stop at the first
    failure. *)
Definition fail_stop {A} (m : M A) : Prop :=
  ∀ w, ∃ new, protoc_log (m w).1 = protoc_log w ++ new ∧ stops new (m w).2.

(** Every toolchain call made by [m] satisfies [Q]. *)
Definition calls {A} (Q : Invocation → Prop) (m : M A) : Prop :=
  ∀ w, ∃ new, protoc_log (m w).1 = protoc_log w ++ new ∧ Forall Q new.


(** The error of a panic, if the result is one. *)
Definition panicked {A} (r : Result A) : option Error :=
  match r with Ok _ => None | Panic e => Some e end.

(** Nothing is left at [tmpDir] or below it. *)
Definition staging_gone (tmpDir : Path) (w : World) : Prop :=
  ∀ q, tmpDir `prefix_of` q → fs w !! q = None.

(** The directories [os.MkdirAll_from pre rest] makes sure of: [pre]
    extended by one, two, ... elements of [rest]. *)
Fixpoint chain (pre rest : Path) : list Path :=
  match rest with
  | [] => []
  | c :: rest' => (pre ++ [c]) :: chain (pre ++ [c]) rest'
  end.

(** The file at [d] holds [c] and the directories above it exist. *)
Definition settled (fs : FS) (d : Path) (c : string) : Prop :=
  fs !! d = Some (File c) ∧ ∀ q, q ∈ chain [] (filepath.Dir d) → fs !! q = Some Dir.

(** The files [syncOutput] handles: generated sources and metadata. *)
Definition is_output (p : Path) : bool :=
  strings.HasSuffix (filepath.String p) ".go"
  || strings.HasSuffix (filepath.String p) ".meta".


(** The lines an apply pass prints for the visited paths. *)
Definition reported (src : Path) (visited : list Path) : list string :=
  flat_map (λ p, if is_output p
                 then match filepath.Rel src p with
                      | Some rel => ["# " +:+ filepath.ToSlash rel]
                      | None => []
                      end
                 else []) visited.

(** The plugins named for a job, as the generator is described. *)
Definition described_plugins (d : Job) : string :=
  if grpcPlugin d then "go,grpc" else "go".

(** The override options of a call of [protoMapOpt] that is the [n]-th
    range of the run. *)
Definition mapOpt_at `{!Externals} (n : nat) : string :=
  strings.Join (map (λ kv, "M" +:+ kv.1 +:+ "=" +:+ kv.2) (map_range n protoPackages)) ",".

Section with_globals.
Variable G : Globals.


(** A description file is skipped when its path matches the expression
    of the legacy directories, or when its path relative to the repository
    root is in the exclude set of the job. *)
Definition skipped (d : Job) (srcPath : Path) : bool :=
  regexp.MatchString excludeRx (filepath.String srcPath)
  || match filepath.Rel (repoRoot G) srcPath with
     | Some relPath => bool_decide (filepath.ToSlash relPath ∈ exclude d)
     | None => false
     end.

End with_globals.
End batch_terms.

(** ** Calls, options and names *)

Module extra_terms.
Import batch_terms.

(** A logged call without its outcome: the plugins and the arguments. *)
Definition call_of (i : Invocation) : string * list string :=
  (inv_plugins i, inv_args i).

(** Does the byte occur in the string? *)
Fixpoint has_byte (a : ascii) (s : string) : bool :=
  match s with
  | "" => false
  | String b s' => bool_decide (a = b) || has_byte a s'
  end.

(** One [M<file>=<package>] option. *)
Definition override_option (kv : string * string) : string :=
  "M" +:+ kv.1 +:+ "=" +:+ kv.2.

(** The string lists the override table: split at its commas it is one
    option for each entry of [protoPackages], each entry once, in some
    order. *)
Definition override_table (mapOpt : string) : Prop :=
  strings.Split mapOpt "," ≡ₚ map override_option protoPackages.

(** The calls [new] are the calls for the items [items], in order and
    one each, every call with override options of its own. *)
Definition called_for {A} (call : A → string → string * list string)
  (new : list Invocation) (items : list A) : Prop :=
  ∃ mapOpts, length mapOpts = length items ∧ Forall override_table mapOpts ∧
             map call_of new = zip_with call items mapOpts.

(** [fs1] is [fs0] at every path that is neither [dir] nor below it. *)
Definition outside (dir : Path) (fs0 fs1 : FS) : Prop :=
  ∀ q, ¬ dir `prefix_of` q → fs1 !! q = fs0 !! q.

(** From a world that is [fs0] outside [dir], [m] leads to such a world,
    whether it returns or panics. *)
Definition keeps_outside {A : Type} (dir : Path) (fs0 : FS) (m : M A) : Prop :=
  ∀ w, outside dir fs0 (fs w) → outside dir fs0 (fs (m w).1).

(** The directories above [dir] exist in [fs0]. *)
Definition above_exist (dir : Path) (fs0 : FS) : Prop :=
  ∀ q, q ∈ chain [] (filepath.Dir dir) → fs0 !! q = Some Dir.

(** The destinations of a pass of the sync engine: where the .go and
    .meta files of the staging tree [src] go below [dst]. *)
Definition sync_targets (dst src : Path) (fs : FS) : list Path :=
  omap (λ p, if is_output p then filepath.Join dst <$> filepath.Rel src p else None)
       (filepath.Walk src fs).

(** No destination lies in the staging tree: the pass does not write
    into the tree it walks. *)
Definition staged_apart (dst src : Path) (fs : FS) : Prop :=
  Forall (λ t, ¬ src `prefix_of` t) (sync_targets dst src fs).

Section with_externals.
Context `{!Externals}.
Variable G : Globals.

(** The toolchain writes where it is told to: called with
    [--go_out=<options>:<dir>] as the argument before the description
    file, it changes nothing that is neither [dir] nor below it. *)
Definition toolchain_confined (dir : Path) : Prop :=
  ∀ plugins front opts file (fs : FS) (q : Path),
    ¬ dir `prefix_of` q →
    cmd_fs (protoc_exec plugins
              (front ++ ["--go_out=" +:+ opts +:+ ":" +:+ filepath.String dir; file]) fs)
      !! q
    = fs !! q.

(** The staging directory of a pass whose temporary name ends in [random]. *)
Definition staging (random : string) : Path := repoRoot G ++ ["tmp" +:+ random].



(** The call made for one target of the remote pass, with [mapOpt] as
    the override options of that call. *)
Definition remote_call (tmpDir : Path) (f : string * string) (mapOpt : string)
  : string * list string :=
  ("go",
   ["-I" +:+ path_Join [protoRoot G; f.1];
    "--go_out=" +:+ mapOpt +:+ ":" +:+ filepath.String tmpDir;
    f.2]).

(** A visited file for which code is generated: a .proto file that is
    not skipped. *)
Definition generated (d : Job) (p : Path) : bool :=
  strings.HasSuffix (filepath.String p) ".proto" && negb (skipped G d p).

(** The call made for a generated file of a job, as a function of the
    file's path relative to the repository root and of the override
    options of that call. *)
Definition local_call (d : Job) (dstDir relPath : Path) (mapOpt : string)
  : string * list string :=
  (if grpcPlugin d then "go,gogrpc" else "go",
   ["-I" +:+ path_Join [protoRoot G; "src"];
    "-I" +:+ filepath.String (repoRoot G);
    "--go_out=" +:+
      (if decide (filepath.ToSlash relPath ∈ annotateFor d)
       then ("paths=source_relative," +:+ mapOpt) +:+ ",annotate_code"
       else "paths=source_relative," +:+ mapOpt) +:+
      ":" +:+ filepath.String dstDir;
    filepath.ToSlash relPath]).

Definition local_call_for (d : Job) (dstDir p : Path) (mapOpt : string)
  : string * list string :=
  local_call d dstDir (default [] (filepath.Rel (repoRoot G) p)) mapOpt.

End with_externals.
End extra_terms.

(** * Sample instances, used to run the definitions *)

Module sample.
Import protoreflect protogen.

(** The names protoreflect prints for kinds and cardinalities. *)
#[export] Instance names : Names := {|
  Kind_String k :=
    match k with
    | BoolKind => "bool" | EnumKind => "enum" | Int32Kind => "int32"
    | Sint32Kind => "sint32" | Uint32Kind => "uint32" | Int64Kind => "int64"
    | Sint64Kind => "sint64" | Uint64Kind => "uint64"
    | Sfixed32Kind => "sfixed32" | Fixed32Kind => "fixed32"
    | FloatKind => "float" | Sfixed64Kind => "sfixed64"
    | Fixed64Kind => "fixed64" | DoubleKind => "double"
    | StringKind => "string" | BytesKind => "bytes"
    | MessageKind => "message" | GroupKind => "group"
    end;
  Cardinality_String c :=
    match c with
    | Optional => "optional" | Required => "required" | Repeated => "repeated"
    end;
|}.

Definition scalar (name : string) (k : Kind) (n : Z) (c : Cardinality) : Field :=
  {| field_GoName := name;
     field_Desc := {| fd_Kind := k; fd_Number := n; fd_Cardinality := c;
                      fd_Enum_FullName := ""; fd_Message_FullName := "" |} |}.

(** The message of the field-number example: name = 1 and tags = 2. *)
Definition X : Message :=
  Build_Message "X" "google.protobuf.X"
    [scalar "Name" StringKind 1 Optional; scalar "Tags" StringKind 2 Repeated] [].

(** A message with a nested message and fields of message and group kind. *)
Definition Outer : Message :=
  Build_Message "Outer" "google.protobuf.Outer"
    [{| field_GoName := "Inner";
        field_Desc := {| fd_Kind := MessageKind; fd_Number := 7;
                         fd_Cardinality := Optional; fd_Enum_FullName := "";
                         fd_Message_FullName := "google.protobuf.Outer.Inner" |} |};
     {| field_GoName := "Grp";
        field_Desc := {| fd_Kind := GroupKind; fd_Number := 8;
                         fd_Cardinality := Repeated; fd_Enum_FullName := "";
                         fd_Message_FullName := "google.protobuf.Outer.Grp" |} |};
     {| field_GoName := "Color";
        field_Desc := {| fd_Kind := EnumKind; fd_Number := 9;
                         fd_Cardinality := Required;
                         fd_Enum_FullName := "google.protobuf.Color";
                         fd_Message_FullName := "" |} |}]
    [Build_Message "Outer_Inner" "google.protobuf.Outer.Inner"
       [scalar "Id" Int64Kind 1 Optional] []].

Definition wkt : File :=
  {| Desc_Path := "google/protobuf/x.proto"; Desc_Package := "google.protobuf";
     Generate := true; Messages := [X; Outer] |}.
Definition other (name : string) (generate : bool) : File :=
  {| Desc_Path := name; Desc_Package := "goproto.proto.test";
     Generate := generate; Messages := [X] |}.

Definition request (fs : list File) : Plugin :=
  {| Files := fs; response := []; GenerateVersionMarkers := true |}.

End sample.

Module sample_world.

Definition after_last (sep : ascii) (s : string) : string :=
  List.last (strings.Split s sep) "".

(** Where the toy compiler puts the code generated for [file]. *)
Definition placed (go_out file : string) : Path :=
  let name := strings.TrimSuffix file ".proto" +:+ ".pb.go" in
  if strings.HasPrefix go_out "--go_out=paths=source_relative" then filepath.FromSlash name
  else if decide (file = "google/protobuf/field_mask.proto")
  then filepath.FromSlash "google.golang.org/genproto/protobuf/field_mask/field_mask.pb.go"
  else filepath.FromSlash ("google.golang.org/protobuf/" +:+ name).

(** A toy compiler: it writes one file below the directory of [--go_out],
    and fails on a source named [broken.proto]. *)
Definition toy_protoc (plugins : string) (cmd_Args : list string) (fs : FS) : Finished :=
  let file := List.last cmd_Args "" in
  let go_out := List.last (List.filter (λ a, strings.HasPrefix a "--go_out=") cmd_Args) "" in
  let target : Path := filepath.FromSlash (after_last ":" go_out) ++ placed go_out file in
  if strings.HasSuffix file "broken.proto"
  then {| cmd_fs := fs; cmd_out := file +:+ ": syntax error";
          cmd_err := Some (ExitError "exit status 1") |}
  else
    match os.MkdirAll (filepath.Dir target) fs with
    | Ok fs1 =>
        match os.WriteFile target ("// " +:+ plugins +:+ " " +:+ file) fs1 with
        | Ok fs2 => {| cmd_fs := fs2; cmd_out := ""; cmd_err := None |}
        | Panic e => {| cmd_fs := fs1; cmd_out := ""; cmd_err := Some e |}
        end
    | Panic e => {| cmd_fs := fs; cmd_out := ""; cmd_err := Some e |}
    end.

(** Quoting puts the string between double quotes; the formatter gives
    its input back; joining puts slashes between the non-empty elements;
    the [n]-th range over a map starts at its [n]-th entry and wraps
    around. *)
#[export] Instance externals : Externals := {|
  Quote s := String "034" s +:+ String "034" "";
  format_Source s := Ok s;
  path_Join elems := strings.Join (List.filter (λ e, negb (String.eqb e "")) elems) "/";
  protoc_exec := toy_protoc;
  diff_exec args fs := [strings.Join ("diff" :: args) " "];
  map_range A n l := rotate n l;
  map_range_Permutation A n l :=
    eq_ind _ (λ l', rotate n l ≡ₚ l')
      (Permutation_app_comm (drop (n `mod` length l) l) (take (n `mod` length l) l))
      _ (take_drop (n `mod` length l) l);
|}.

(** A file system with the given regular files and their directories. *)
Definition with_file (fs : FS) (f : string * string) : FS :=
  let p := filepath.FromSlash f.1 in
  match os.MkdirAll (filepath.Dir p) fs with
  | Ok fs1 => match os.WriteFile p f.2 fs1 with Ok fs2 => fs2 | Panic _ => fs1 end
  | Panic _ => fs
  end.
Definition tree (files : list (string * string)) : FS := fold_left with_file files ∅.

Definition G (execute : bool) : Globals :=
  {| run := execute; protoRoot := "/protobuf"; repoRoot := ["r"];
     modulePath := "google.golang.org/protobuf"; argv0 := "generate-protos" |}.

Definition repo : FS := tree [
  ("r/go.mod", "module google.golang.org/protobuf");
  ("r/cmd/protoc-gen-go/testdata/annotations/annotations.proto", "a");
  ("r/cmd/protoc-gen-go/testdata/import_public/a.proto", "b");
  ("r/cmd/protoc-gen-go-grpc/testdata/grpc/grpc.proto", "c");
  ("r/internal/testprotos/irregular/irregular.proto", "d");
  ("r/internal/testprotos/legacy/proto2_20160225_2fc053c5/test.proto", "e");
  ("r/internal/testprotos/test/test.proto", "f")
].

Definition start (fs : FS) : World :=
  {| fs := fs; stdout := []; protoc_log := []; ranges := 0 |}.

(** A repository with a staging directory [r/tmp1] that holds two
    generated files and a file the sync engine passes over. *)
Definition staged : FS := tree [
  ("r/go.mod", "module google.golang.org/protobuf");
  ("r/x/a.pb.go", "old a");
  ("r/tmp1/x/a.pb.go", "new a");
  ("r/tmp1/x/y/b.meta", "new b");
  ("r/tmp1/x/notes.txt", "not generated")
].

(** A staging directory with a file whose destination is in the staging
    directory itself. *)
Definition staged_inside : FS := tree [
  ("r/go.mod", "module google.golang.org/protobuf");
  ("r/tmp1/tmp1/a.pb.go", "a")
].

(** A job on a testdata directory with one of its files excluded. *)
Definition job_x : Job :=
  {| job_path := "x/testdata"; grpcPlugin := false; annotateFor := ∅;
     exclude := {["x/testdata/sub/skip.proto"]} |}.
Definition repo_x : FS := tree [
  ("r/x/testdata/keep/keep.proto", "k");
  ("r/x/testdata/sub/skip.proto", "s");
  ("r/tmp1/keep", "")
].

(** The first job of [dirs] and a staging directory that has its root. *)
Definition job_go : Job :=
  {| job_path := "cmd/protoc-gen-go/testdata"; grpcPlugin := false;
     annotateFor := {["cmd/protoc-gen-go/testdata/annotations/annotations.proto"]};
     exclude := ∅ |}.
Definition staging_go : FS := tree [
  ("r/tmp1/cmd/protoc-gen-go/testdata/a/a.pb.go", "a")
].

(** An empty staging directory, as [TempDir] leaves it. *)
Definition staging_empty : FS := tree [("r/go.mod", "m"); ("r/tmp1/keep", "")].




(** A repository with a description file the toy compiler fails on. *)
Definition repo_broken : FS := tree [
  ("r/cmd/protoc-gen-go/testdata/a/a.proto", "a");
  ("r/cmd/protoc-gen-go/testdata/b/broken.proto", "b");
  ("r/cmd/protoc-gen-go/testdata/c/c.proto", "c")
].

End sample_world.

Module sample_boxed.
Import sample_world.

(** A toy compiler that works inside the directory of [--go_out], the
    argument before the description file: it makes the directories of the
    generated file below that directory and writes the file. *)
Definition boxed_protoc (plugins : string) (cmd_Args : list string) (fs : FS) : Finished :=
  let file := List.last cmd_Args "" in
  let go_out := List.last (removelast cmd_Args) "" in
  let dir : Path := filepath.FromSlash (after_last ":" go_out) in
  let rel : Path := placed go_out file in
  match os.MkdirAll_from dir (filepath.Dir rel) fs with
  | Ok fs1 =>
      match os.WriteFile (dir ++ rel) ("// " +:+ plugins +:+ " " +:+ file) fs1 with
      | Ok fs2 => {| cmd_fs := fs2; cmd_out := ""; cmd_err := None |}
      | Panic e => {| cmd_fs := fs1; cmd_out := ""; cmd_err := Some e |}
      end
  | Panic e => {| cmd_fs := fs; cmd_out := ""; cmd_err := Some e |}
  end.

(** The sample externals with this compiler in place of the other. *)
Definition boxed : Externals := {|
  Quote := @Quote externals;
  format_Source := @format_Source externals;
  path_Join := @path_Join externals;
  protoc_exec := boxed_protoc;
  diff_exec := @diff_exec externals;
  map_range := @map_range externals;
  map_range_Permutation := @map_range_Permutation externals;
|}.

End sample_boxed.

(** * Running the definitions *)

Module examples_plugin.
Import protoreflect protogen sample.

Example HasSuffix_proto : strings.HasSuffix "a/b.proto" ".proto" = true.
Proof. reflexivity. Qed.
Example TrimSuffix_proto : strings.TrimSuffix "descriptor.proto" ".proto" = "descriptor".
Proof. reflexivity. Qed.
Example Split_plugins : strings.Split "go,gogrpc" "," = ["go"; "gogrpc"].
Proof. reflexivity. Qed.
Example Split_empty_piece : strings.Split "go,,x," "," = ["go"; ""; "x"; ""].
Proof. reflexivity. Qed.
Example Base_importPath :
  path.Base "google.golang.org/protobuf/internal/fieldnum" = "fieldnum".
Proof. reflexivity. Qed.
Example Base_trailing : path.Base "a/b//" = "b".
Proof. reflexivity. Qed.

Example legacy_matches :
  regexp.MatchString excludeRx
    "/r/internal/testprotos/legacy/proto2_20160225_2fc053c5/test.proto" = true.
Proof. vm_compute. reflexivity. Qed.
Example legacy_upper_hex_does_not_match :
  regexp.MatchString excludeRx
    "/r/internal/testprotos/legacy/proto2_20160225_2FC053C5/test.proto" = false.
Proof. vm_compute. reflexivity. Qed.
Example legacy_proto4_does_not_match :
  regexp.MatchString excludeRx
    "/r/internal/testprotos/legacy/proto4_20160225_2fc053c5/test.proto" = false.
Proof. vm_compute. reflexivity. Qed.

Example fieldnum_of_X :
  plugin.generateFieldNumbers "google.golang.org/protobuf" (request [])
    {| Desc_Path := "google/protobuf/x.proto"; Desc_Package := "google.protobuf";
       Generate := true; Messages := [X] |}
  = {| Files := [];
       response := [NewGeneratedFile
         {| filename := "google.golang.org/protobuf/internal/fieldnum/x_gen.go";
            goImportPath := "google.golang.org/protobuf/internal/fieldnum";
            buf := plugin.generatedPreamble ++
                   ["package fieldnum"; "";
                    "// Field numbers for google.protobuf.X.";
                    "const (";
                    "X_Name=1// optional string";
                    "X_Tags=2// repeated string";
                    ")"] |}];
       GenerateVersionMarkers := true |}.
Proof. vm_compute. reflexivity. Qed.

Example run_two_plugins :
  response (plugin.run_plugins "m" "go,gogrpc"
              (request [other "a.proto" true; other "skip.proto" false;
                        other "b.proto" true]))
  = [gengo_GenerateFile "a.proto"; gengo_GenerateFile "b.proto";
     gengogrpc_GenerateFile "a.proto"; gengogrpc_GenerateFile "b.proto"].
Proof. vm_compute. reflexivity. Qed.

End examples_plugin.

Module examples_batch.
Import sample_world.

(** The local pass over the sample repository: the files handed to the
    toolchain, with their plugins.  The legacy file and the excluded
    irregular.proto are not among them. *)
Example local_pass_calls :
  map (λ i, (inv_plugins i, last (inv_args i)))
    (protoc_log (generateLocalProtos (G false) "1" (start repo)).1)
  = [("go", Some "cmd/protoc-gen-go/testdata/annotations/annotations.proto");
     ("go", Some "cmd/protoc-gen-go/testdata/import_public/a.proto");
     ("go,gogrpc", Some "cmd/protoc-gen-go-grpc/testdata/grpc/grpc.proto");
     ("go", Some "internal/testprotos/test/test.proto")].
Proof. vm_compute. reflexivity. Qed.

(** In diff mode the local pass leaves the repository as it found it. *)
Example local_pass_diff_mode_restores :
  bool_decide (fs (generateLocalProtos (G false) "1" (start repo)).1 = repo) = true.
Proof. vm_compute. reflexivity. Qed.

(** In apply mode it reports what it copied. *)
Example local_pass_apply_mode_reports :
  stdout (generateLocalProtos (G true) "1" (start repo)).1
  = ["# cmd/protoc-gen-go/testdata/annotations/annotations.pb.go";
     "# cmd/protoc-gen-go/testdata/gen_test.go";
     "# cmd/protoc-gen-go/testdata/import_public/a.pb.go";
     "# cmd/protoc-gen-go-grpc/testdata/gen_test.go";
     "# cmd/protoc-gen-go-grpc/testdata/grpc/grpc.pb.go";
     "# internal/testprotos/test/test.pb.go"].
Proof. vm_compute. reflexivity. Qed.

(** Sub-directories b, a, c give the imports of a, b, c, in that order. *)
Example imports_of_b_a_c :
  gen_test_imports (G false) job_go [["b"]; ["a"]; ["c"]]
  = map (import_line (G false) job_go) [["a"]; ["b"]; ["c"]].
Proof. vm_compute. reflexivity. Qed.

(** Two calls of [protoMapOpt] in one run: the same options, in
    different orders. *)
Example options_of_two_calls :
  let first := (protoMapOpt (start repo)).2 in
  let second := (protoMapOpt (protoMapOpt (start repo)).1).2 in
  match first, second with
  | Ok o1, Ok o2 =>
      (bool_decide (o1 = o2),
       bool_decide (strings.Split o1 "," ≡ₚ strings.Split o2 ","),
       hd_error (strings.Split o1 ","), hd_error (strings.Split o2 ","))
  | _, _ => (true, false, None, None)
  end
  = (false, true,
     Some "Mgoogle/protobuf/field_mask.proto=google.golang.org/protobuf/internal/testprotos/fieldmaskpb",
     Some "Mgoogle/protobuf/any.proto=google.golang.org/protobuf/types/known/anypb").
Proof. vm_compute. reflexivity. Qed.

(** A toolchain failure: the second call fails, no third call is made,
    the run panics with the error of the call, and nothing is left of the
    staging directory. *)
Example broken_run :
  let '(w, r) := main (G true) "1" "2" (start repo_broken) in
  (map inv_err (protoc_log w), r, bool_decide (fs w = repo_broken))
  = ([None; Some (ExitError "exit status 1")],
     Panic (ExitError "exit status 1"), true).
Proof. vm_compute. reflexivity. Qed.

(** The copy of field_mask.pb.go in the sample staging directory. *)
Example field_mask_copied :
  let w := (generateRemoteFiles (G false) ["r"; "tmp1"] ;;
            copy_field_mask ["r"; "tmp1"])%stdpp (start staging_empty) in
  (fs w.1 !! field_mask_old ["r"; "tmp1"], fs w.1 !! field_mask_new ["r"; "tmp1"], w.2)
  = (Some (File "// go google/protobuf/field_mask.proto"),
     Some (File "// go google/protobuf/field_mask.proto"), Ok tt).
Proof. vm_compute. reflexivity. Qed.

(** Staging X over a destination Y: the apply pass overwrites Y with X. *)
Example apply_overwrites :
  let w := (syncOutput (G true) ["r"] ["r"; "tmp1"] (start staged)).1 in
  (fs (start staged) !! ["r"; "x"; "a.pb.go"], fs w !! ["r"; "x"; "a.pb.go"],
   fs w !! ["r"; "x"; "y"; "b.meta"], fs w !! ["r"; "x"; "notes.txt"], stdout w)
  = (Some (File "old a"), Some (File "new a"), Some (File "new b"), None,
     ["# x/a.pb.go"; "# x/y/b.meta"]).
Proof. vm_compute. reflexivity. Qed.

(** A staged file whose destination lies in the staging directory: the
    pass changes the staged tree, and a second pass is then a pass over a
    different staged tree. *)
Example apply_into_staging :
  let w1 := (syncOutput (G true) ["r"] ["r"; "tmp1"] (start staged_inside)).1 in
  let w2 := (syncOutput (G true) ["r"] ["r"; "tmp1"]
               (start (fs w1))).1 in
  (bool_decide (filepath.below ["r"; "tmp1"] (fs w1)
                = filepath.below ["r"; "tmp1"] staged_inside),
   stdout w1, stdout w2)
  = (false, ["# tmp1/a.pb.go"], ["# a.pb.go"; "# tmp1/a.pb.go"]).
Proof. vm_compute. reflexivity. Qed.

End examples_batch.

(** * The field-number extractor and the plugin loop *)

Module plugin_facts.
Import protoreflect protogen plugin plugin_terms.

(** Induction over a message and the messages nested in it. *)
Fixpoint Message_nested_ind (Q : Message → Prop)
  (step : ∀ n fn fields nested, Forall Q nested → Q (Build_Message n fn fields nested))
  (m : Message) : Q m :=
  match m with
  | Build_Message n fn fields nested =>
      step n fn fields nested
        ((fix all (ms : list Message) : Forall Q ms :=
            match ms with
            | [] => @List.Forall_nil _ Q
            | m' :: ms' => @List.Forall_cons _ Q m' ms' (Message_nested_ind Q step m') (all ms')
            end) nested)
  end.

Section with_names.
Context `{!Names}.

Lemma typeName_described fd : typeName fd = described_type_name fd.
Proof.
  unfold typeName, described_type_name, enum_typed, message_typed.
  by destruct (fd_Kind fd).
Qed.

Lemma Join_nil_sep (v : list string) : strings.Join v "" = foldr String.app "" v.
Proof.
  induction v as [|x [|y v] IH]; simpl in *.
  - reflexivity.
  - induction x; simpl; [reflexivity | unfold String.app in *; simpl; congruence].
  - unfold String.app in *. simpl. rewrite IH. reflexivity.
Qed.

Lemma processField_constant m g f : processField m g f = g ++ [constant m f].
Proof.
  unfold processField, P, constant. rewrite Join_nil_sep, typeName_described. simpl.
  replace (described_type_name (field_Desc f) +:+ "")
    with (described_type_name (field_Desc f)).
  - reflexivity.
  - generalize (described_type_name (field_Desc f)). intros s.
    induction s; simpl; [reflexivity | unfold String.app in *; simpl; congruence].
Qed.

Lemma fold_processField m fields g :
  fold_left (processField m) fields g = g ++ map (constant m) fields.
Proof.
  revert g. induction fields as [|f fields IH]; intros g; simpl.
  - by rewrite app_nil_r.
  - rewrite IH, processField_constant, <- app_assoc. reflexivity.
Qed.

Lemma fold_processMessage_with (ms : list Message) :
  Forall (λ m, ∀ g, processMessage g m = g ++ flat_map const_block (depth_first m)) ms →
  ∀ g, fold_left processMessage ms g
       = g ++ flat_map const_block (flat_map depth_first ms).
Proof.
  induction 1 as [|m ms Hm _ IH]; intros g; simpl.
  - by rewrite app_nil_r.
  - rewrite Hm, IH, flat_map_app, <- app_assoc. reflexivity.
Qed.

Lemma processMessage_depth_first m :
  ∀ g, processMessage g m = g ++ flat_map const_block (depth_first m).
Proof.
  induction m as [n fn fields nested IH] using Message_nested_ind. intros g.
  cbn [processMessage depth_first flat_map msg_FullName msg_Fields].
  rewrite (fold_processMessage_with nested IH), fold_processField.
  unfold P, const_block. cbn [strings.Join msg_FullName msg_Fields].
  rewrite <- !app_assoc. reflexivity.
Qed.

Lemma processMessages_depth_first ms g :
  processMessages ms g = g ++ flat_map const_block (flat_map depth_first ms).
Proof.
  apply fold_processMessage_with, Forall_forall.
  intros m _. apply processMessage_depth_first.
Qed.

Lemma rev_app_app s1 s2 acc :
  String.rev_app (s1 +:+ s2) acc = String.rev_app s2 (String.rev_app s1 acc).
Proof. revert acc. induction s1 as [|a s1 IH]; intros acc; simpl; [done | apply IH]. Qed.

Lemma Base_fieldnum modulePath :
  path.Base (modulePath +:+ "/internal/fieldnum") = "fieldnum".
Proof.
  unfold path.Base. rewrite decide_False by (by destruct modulePath).
  unfold String.rev. rewrite rev_app_app. reflexivity.
Qed.

Lemma with_response_eta gen :
  {| Files := Files gen; response := response gen;
     GenerateVersionMarkers := GenerateVersionMarkers gen |} = gen.
Proof. by destruct gen. Qed.

(** C3.  [generateFieldNumbers] leaves the response as it is for a file
    whose package is not google.protobuf.  For a file of that package it
    adds one generated file, whose lines are the preamble, the package
    clause and, for the messages in depth-first declaration order (nested
    messages included), a const block with exactly one constant per field,
    in field order: [<MessageGoName>_<FieldGoName>=<number>], followed by a
    comment with the cardinality and the type name, which is the full name
    of the enum or message for enum-, message- and group-kind fields and
    the name of the kind otherwise. *)
Theorem generateFieldNumbers_constants modulePath gen file :
  generateFieldNumbers modulePath gen file =
    {| Files := Files gen;
       response := response gen ++ fieldnum_emitted modulePath file;
       GenerateVersionMarkers := GenerateVersionMarkers gen |}.
Proof.
  unfold generateFieldNumbers, fieldnum_emitted.
  destruct (decide (Desc_Package file = "google.protobuf")) as [Hpkg|Hpkg].
  - rewrite decide_False by (intros Hne; by apply Hne).
    unfold fieldnum_file. rewrite processMessages_depth_first, Base_fieldnum.
    reflexivity.
  - rewrite decide_True by done. rewrite app_nil_r. symmetry. apply with_response_eta.
Qed.

Lemma dispatch_emitted modulePath plugin gen file :
  Files (dispatch modulePath plugin gen file) = Files gen ∧
  response (dispatch modulePath plugin gen file)
  = response gen ++ emitted modulePath plugin file.
Proof.
  unfold dispatch, emitted.
  destruct (decide (plugin = "go")); [|destruct (decide (plugin = "gogrpc"))].
  - rewrite generateFieldNumbers_constants. simpl.
    by rewrite <- app_assoc.
  - done.
  - by rewrite app_nil_r.
Qed.

Lemma fold_files modulePath plugin files gen :
  let gen' := fold_left (λ gen file, if Generate file
                                     then dispatch modulePath plugin gen file
                                     else gen) files gen in
  Files gen' = Files gen ∧
  response gen' = response gen ++
    flat_map (λ file, if Generate file then emitted modulePath plugin file else [])
      files.
Proof.
  revert gen. induction files as [|file files IH]; intros gen; simpl.
  - by rewrite app_nil_r.
  - destruct (IH (if Generate file then dispatch modulePath plugin gen file else gen))
      as [HF HR].
    rewrite HF, HR. destruct (Generate file).
    + destruct (dispatch_emitted modulePath plugin gen file) as [-> ->].
      by rewrite <- app_assoc.
    + done.
Qed.

Lemma fold_plugins modulePath plugins gen :
  let gen' := fold_left
    (λ gen plugin,
       fold_left (λ gen file, if Generate file
                              then dispatch modulePath plugin gen file else gen)
         (Files gen) gen) plugins gen in
  Files gen' = Files gen ∧
  response gen' = response gen ++ by_plugin modulePath plugins (Files gen).
Proof.
  revert gen. induction plugins as [|plugin plugins IH]; intros gen; simpl.
  - by rewrite app_nil_r.
  - destruct (fold_files modulePath plugin (Files gen) gen) as [HF HR].
    simpl in HF, HR.
    match goal with |- context [fold_left _ plugins ?g] => destruct (IH g) as [HF' HR'] end.
    simpl in HF', HR'. rewrite HF', HR', HF, HR, <- app_assoc. done.
Qed.

Lemma run_plugins_by_plugin modulePath plugins gen :
  response (run_plugins modulePath plugins gen)
  = response gen ++ by_plugin modulePath (strings.Split plugins ",") (Files gen).
Proof. apply fold_plugins. Qed.

Context `{!Externals}.

(** C2, as the code has it.  With RUN_AS_PROTOC_PLUGIN set, the process
    leaves with status 0 and [main] never starts.  What it writes is the
    response received, followed by the output of the backends taken name by
    name: for each name of the comma-separated list, in list order, the
    backend of that name is run on every file marked for generation, in
    request order ([go] is followed by the field-number extractor; a name
    other than [go] and [gogrpc] runs nothing). *)
Theorem plugin_mode_runs_backends_name_by_name
  (G : Globals) (plugins : string) (gen : Plugin) (random1 random2 : string)
  (w : World) :
  plugins ≠ "" →
  process G plugins gen random1 random2 w
  = Exit 0 (response gen ++
            by_plugin (modulePath G) (strings.Split plugins ",") (Files gen)).
Proof.
  intros Hset. unfold process. rewrite decide_True by done.
  by rewrite run_plugins_by_plugin.
Qed.

End with_names.

Import sample sample_world.

Lemma plugin_mode_runs_backends_name_by_name_witness :
  "go,gogrpc" ≠ "" ∧
  process (G false) "go,gogrpc"
    (request [other "a.proto" true; wkt; other "skip.proto" false]) "1" "2" (start repo)
  = Exit 0 (response (request [other "a.proto" true; wkt; other "skip.proto" false]) ++
            by_plugin (modulePath (G false)) (strings.Split "go,gogrpc" ",")
              (Files (request [other "a.proto" true; wkt; other "skip.proto" false]))).
Proof.
  split; [done|].
  apply plugin_mode_runs_backends_name_by_name. done.
Defined.

(** C2 as stated fails: with two names and two files to generate, the
    process does not write the output of the backends taken file by file. *)
Lemma plugin_mode_file_by_file_counterexample :
  process (G false) "go,gogrpc"
    (request [other "a.proto" true; other "b.proto" true]) "1" "2" (start repo)
  ≠ Exit 0 (by_file (modulePath (G false)) (strings.Split "go,gogrpc" ",")
              [other "a.proto" true; other "b.proto" true]).
Proof. vm_compute. intros [=]. Qed.

End plugin_facts.

(** * The batch generator: panics, clean-up and the toolchain log *)

Module batch_facts.
Import batch_terms.

Section with_externals.
Context `{!Externals}.
Variable G : Globals.

(** ** Running the monad *)

Lemma bind_run {A B} (m : M A) (k : A → M B) w :
  (m ≫= k) w = match m w with
               | (w', Ok a) => k a w'
               | (w', Panic e) => (w', Panic e)
               end.
Proof. reflexivity. Qed.

Lemma bind_Ok {A B} (m : M A) (k : A → M B) w w' b :
  (m ≫= k) w = (w', Ok b) ↔ ∃ w1 a, m w = (w1, Ok a) ∧ k a w1 = (w', Ok b).
Proof.
  rewrite bind_run. destruct (m w) as [w1 [a|e]]; split.
  - eauto.
  - by intros (? & ? & [= <- <-] & ?).
  - done.
  - by intros (? & ? & [=] & ?).
Qed.

(** Runs the binds at the head of the goal whose first computation is a
    [check]. *)
Ltac run_binds :=
  repeat first [rewrite bind_run | progress (unfold check) | progress (cbn beta iota)].

Lemma returned {A} (m : World * Result A) (a : A) :
  m.2 = Ok a → m = (m.1, Ok a).
Proof. destruct m as [w r]. simpl. by intros ->. Qed.

Lemma protoMapOpt_run w : protoMapOpt w = (count_range w, Ok (mapOpt_at (ranges w))).
Proof. reflexivity. Qed.

Lemma set_fs_same w : set_fs w (fs w) = w.
Proof. by destruct w. Qed.

(** ** A failing toolchain call is the last one *)

Lemma fail_stop_quiet {A} (m : M A) :
  (∀ w, protoc_log (m w).1 = protoc_log w) → fail_stop m.
Proof.
  intros Hq w. exists []. rewrite Hq, app_nil_r. split; [done|].
  destruct (m w).2; [constructor | left; constructor].
Qed.











Lemma fail_stop_print {A} (f : World → list string) (a : A) :
  fail_stop (λ w, (print w (f w), Ok a)).
Proof. by apply fail_stop_quiet. Qed.











(** ** The staging directory is removed *)

Lemma RemoveAll_gone tmpDir w : staging_gone tmpDir (RemoveAll tmpDir w).
Proof.
  intros q Hq. unfold RemoveAll, os.RemoveAll. simpl.
  apply map_lookup_filter_None. right. intros x _ Hn. by apply Hn.
Qed.


(** ** Paths and walks *)

Lemma Rel_Some base target rel :
  filepath.Rel base target = Some rel ↔ target = base ++ rel.
Proof.
  revert target. induction base as [|b base IH]; intros [|t target]; simpl.
  - split; [by intros [= <-] | by intros <-].
  - split; [by intros [= <-] | by intros <-].
  - done.
  - case_decide as Hbt.
    + subst t. rewrite IH. split; [by intros -> | by intros [= ->]].
    + split; [done | by intros [= ??]].
Qed.

Lemma Rel_app base rel : filepath.Rel base (base ++ rel) = Some rel.
Proof. by apply Rel_Some. Qed.

Lemma Rel_prefix base target :
  base `prefix_of` target → ∃ rel, filepath.Rel base target = Some rel.
Proof. intros [rel ->]. exists rel. apply Rel_app. Qed.

Lemma Walk_prefix root fs p : p ∈ filepath.Walk root fs → root `prefix_of` p.
Proof.
  unfold filepath.Walk. case_decide.
  - rewrite merge_sort_Permutation, elem_of_elements, elem_of_dom.
    intros [n Hn]. by apply map_lookup_filter_Some in Hn as [_ ?].
  - by intros ->%list_elem_of_singleton.
Qed.

Lemma Walk_NoDup root fs : NoDup (filepath.Walk root fs).
Proof.
  unfold filepath.Walk. case_decide.
  - rewrite merge_sort_Permutation. apply NoDup_elements.
  - apply NoDup_singleton.
Qed.

Lemma Walk_agree (root : Path) (fs1 fs2 : FS) :
  (∀ p, root `prefix_of` p → fs1 !! p = fs2 !! p) →
  filepath.Walk root fs1 = filepath.Walk root fs2.
Proof.
  intros Hagree. unfold filepath.Walk.
  assert (filepath.below root fs1 = filepath.below root fs2) as ->.
  { apply map_eq. intros p. unfold filepath.below.
    destruct (decide (root `prefix_of` p)) as [Hp|Hp].
    - rewrite !map_lookup_filter. rewrite (Hagree p Hp). done.
    - transitivity (@None Node); [|symmetry];
        apply map_lookup_filter_None; right; by intros.
  }
  rewrite (Hagree root) by done. done.
Qed.

(** ** Making directories and copying a file *)

Lemma chain_prefix pre rest q : q ∈ chain pre rest → q `prefix_of` pre ++ rest.
Proof.
  revert pre. induction rest as [|c rest IH]; intros pre; simpl.
  - by intros ?%elem_of_nil.
  - intros [->|Hq]%elem_of_cons.
    + exists rest. by rewrite <- app_assoc.
    + apply IH in Hq. by rewrite <- app_assoc in Hq.
Qed.

Lemma chain_longer pre rest q : q ∈ chain pre rest → length pre < length q.
Proof.
  revert pre. induction rest as [|c rest IH]; intros pre; simpl.
  - by intros ?%elem_of_nil.
  - intros [->|Hq]%elem_of_cons.
    + rewrite length_app. simpl. lia.
    + apply IH in Hq. rewrite length_app in Hq. simpl in Hq. lia.
Qed.

Lemma chain_last pre rest : rest ≠ [] → pre ++ rest ∈ chain pre rest.
Proof.
  revert pre. induction rest as [|c [|c' rest] IH]; intros pre Hne; [done|..].
  - left.
  - right. rewrite (cons_middle c pre), app_assoc. by apply IH.
Qed.

Lemma MkdirAll_from_Ok (pre rest : Path) (fs fs' : FS) :
  os.MkdirAll_from pre rest fs = Ok fs' →
  (∀ q, q ∈ chain pre rest → fs' !! q = Some Dir) ∧
  (∀ q, fs' !! q = fs !! q ∨
        (q ∈ chain pre rest ∧ fs !! q = None ∧ fs' !! q = Some Dir)).
Proof.
  revert pre fs. induction rest as [|c rest IH]; intros pre fs; simpl.
  - intros [= <-]. split; [by intros q ?%elem_of_nil | by left].
  - destruct (fs !! (pre ++ [c])) as [[b|]|] eqn:Hp; [done|..]; intros Hrec;
      apply IH in Hrec as [Hdirs Hframe].
    + split.
      * intros q [->|Hq]%elem_of_cons; [|by apply Hdirs].
        destruct (Hframe (pre ++ [c])) as [->|(Hin & _)]; [done|].
        apply chain_longer in Hin. lia.
      * intros q. destruct (Hframe q) as [?|(?&?&?)]; [by left|].
        right. split; [by right | done].
    + split.
      * intros q [->|Hq]%elem_of_cons; [|by apply Hdirs].
        destruct (Hframe (pre ++ [c])) as [->|(Hin & _)];
          [apply lookup_insert_eq|].
        apply chain_longer in Hin. lia.
      * intros q. destruct (decide (q = pre ++ [c])) as [->|Hne].
        { right. split; [left|]. split; [done|].
          destruct (Hframe (pre ++ [c])) as [->|(Hin & _)];
            [apply lookup_insert_eq|].
          apply chain_longer in Hin. lia. }
        destruct (Hframe q) as [Hq|(?&Hq&?)];
          rewrite lookup_insert_ne in Hq by done; [by left|].
        right. split; [by right | done].
Qed.

Lemma MkdirAll_from_id (pre rest : Path) (fs : FS) :
  (∀ q, q ∈ chain pre rest → fs !! q = Some Dir) →
  os.MkdirAll_from pre rest fs = Ok fs.
Proof.
  revert pre. induction rest as [|c rest IH]; intros pre Hdirs; simpl; [done|].
  rewrite (Hdirs (pre ++ [c])) by left. apply IH.
  intros q Hq. apply Hdirs. by right.
Qed.




Lemma WriteFile_Ok (p : Path) (b : string) (fs fs' : FS) :
  os.WriteFile p b fs = Ok fs' →
  fs' = <[p := File b]> fs ∧ fs !! p ≠ Some Dir ∧
  os.is_dir fs (filepath.Dir p) = true.
Proof.
  unfold os.WriteFile. intros Hw.
  destruct (fs !! p) as [[c|]|] eqn:Hp; try done;
    destruct (os.is_dir fs (filepath.Dir p)); try done;
    by injection Hw as <-.
Qed.

Lemma removelast_prefix (p : Path) : removelast p `prefix_of` p.
Proof.
  destruct (decide (p = [])) as [->|Hne]; [done|].
  exists [List.last p inhabitant]. by apply app_removelast_last.
Qed.

Lemma is_dir_chain (fs : FS) (p : Path) :
  (∀ q, q ∈ chain [] p → fs !! q = Some Dir) → os.is_dir fs p = true.
Proof.
  intros Hdirs. unfold os.is_dir. destruct p as [|c p]; [done|].
  by rewrite (Hdirs (c :: p)) by (apply (chain_last []); done).
Qed.

Lemma copyFile_Ok dstPath srcPath w w' :
  copyFile dstPath srcPath w = (w', Ok tt) →
  ∃ c fs1, fs w !! srcPath = Some (File c) ∧
           os.MkdirAll (filepath.Dir dstPath) (fs w) = Ok fs1 ∧
           fs1 !! dstPath ≠ Some Dir ∧
           w' = set_fs w (<[dstPath := File c]> fs1).
Proof.
  unfold copyFile, os.ReadFile. run_binds.
  destruct (fs w !! srcPath) as [[c|]|] eqn:Hsrc; try done. run_binds.
  unfold check_fs at 1.
  destruct (os.MkdirAll _ _) as [fs1|e] eqn:Hmk; [|done]. run_binds.
  unfold check_fs. simpl.
  destruct (os.WriteFile _ _ _) as [fs2|e] eqn:Hwr; [|done].
  intros [= <-]. apply WriteFile_Ok in Hwr as (-> & Hnd & _).
  exists c, fs1. by destruct w.
Qed.

(** Copying onto a settled file with the same contents changes nothing. *)
Lemma copyFile_id dstPath srcPath c w :
  fs w !! srcPath = Some (File c) → settled (fs w) dstPath c →
  copyFile dstPath srcPath w = (w, Ok tt).
Proof.
  intros Hsrc [Hdst Hdirs]. unfold copyFile, os.ReadFile. run_binds.
  rewrite Hsrc. run_binds. unfold check_fs at 1. unfold os.MkdirAll.
  rewrite MkdirAll_from_id by done. rewrite set_fs_same. run_binds.
  unfold check_fs, os.WriteFile. rewrite Hdst, is_dir_chain by done.
  by rewrite insert_id, set_fs_same.
Qed.

(** What a copy that returned has changed. *)
Lemma copyFile_effect dstPath srcPath w w' :
  copyFile dstPath srcPath w = (w', Ok tt) →
  stdout w' = stdout w ∧ protoc_log w' = protoc_log w ∧
  (∃ c, fs w !! srcPath = Some (File c) ∧ settled (fs w') dstPath c) ∧
  (∀ q, fs w !! q = Some Dir → fs w' !! q = Some Dir) ∧
  (∀ q n, q ≠ dstPath → fs w !! q = Some n → fs w' !! q = Some n) ∧
  (∀ q, ¬ q `prefix_of` dstPath → fs w' !! q = fs w !! q) ∧
  (∀ q, q ≠ dstPath →
        fs w' !! q = fs w !! q ∨ (fs w !! q = None ∧ fs w' !! q = Some Dir)).
Proof.
  intros (c & fs1 & Hsrc & Hmk & Hnd & ->)%copyFile_Ok.
  apply MkdirAll_from_Ok in Hmk as [Hdirs Hframe]. simpl.
  assert (Hnotin : dstPath ∉ chain [] (filepath.Dir dstPath)).
  { intros Hin. specialize (Hdirs _ Hin). done. }
  split; [done|]. split; [done|]. split; [|split; [|split; [|split]]];
    [..|intros q Hne; rewrite lookup_insert_ne by done;
        destruct (Hframe q) as [->|(_ & ? & ?)]; [by left | by right]].
  - exists c. split; [done|]. split; [apply lookup_insert_eq|].
    intros q Hq. rewrite lookup_insert_ne by (by intros <-). by apply Hdirs.
  - intros q Hq. destruct (decide (q = dstPath)) as [->|Hne].
    + destruct (Hframe dstPath) as [Heq|(_ & Hnone & _)]; congruence.
    + rewrite lookup_insert_ne by done.
      destruct (Hframe q) as [->|(_ & Hnone & _)]; congruence.
  - intros q n Hne Hq. rewrite lookup_insert_ne by done.
    destruct (Hframe q) as [->|(_ & Hnone & _)]; congruence.
  - intros q Hq. rewrite lookup_insert_ne by (intros <-; by apply Hq).
    destruct (Hframe q) as [->|(Hin & _)]; [done|].
    destruct Hq. apply chain_prefix in Hin. simpl in Hin.
    etrans; [exact Hin | apply removelast_prefix].
Qed.



(** ** The copy of field_mask.pb.go *)




(** ** The sync engine *)

Lemma print_nil w : print w [] = w.
Proof. destruct w. unfold print. simpl. by rewrite app_nil_r. Qed.

Lemma print_print w l1 l2 : print (print w l1) l2 = print w (l1 ++ l2).
Proof. unfold print. simpl. by rewrite app_assoc. Qed.

Lemma syncFn_not_output dst src p w :
  is_output p = false → syncFn G dst src tt p w = (w, Ok tt).
Proof.
  unfold is_output, syncFn. intros [-> ->]%orb_false_elim. reflexivity.
Qed.

Lemma syncFn_output dst src p rel w :
  is_output p = true → filepath.Rel src p = Some rel →
  syncFn G dst src tt p w =
    if run G
    then copyFile (filepath.Join dst rel) p (print w ["# " +:+ filepath.ToSlash rel])
    else (print w (diff_exec [filepath.String (filepath.Join dst rel);
                              filepath.String p; "-N"; "-u"] (fs w)), Ok tt).
Proof.
  unfold is_output, syncFn, check_Rel. intros Hout ->.
  rewrite <- negb_orb, Hout. cbn [negb]. run_binds.
  destruct (run G); [|done]. by run_binds.
Qed.


(** What a copy has done when it stopped, on either outcome. *)
Lemma copyFile_any dstPath srcPath w w' r :
  copyFile dstPath srcPath w = (w', r) →
  fs w' = fs w ∨
  ∃ fs1, os.MkdirAll (filepath.Dir dstPath) (fs w) = Ok fs1 ∧
         (fs w' = fs1 ∨
          ∃ c, fs w !! srcPath = Some (File c) ∧ fs w' = <[dstPath := File c]> fs1).
Proof.
  unfold copyFile, os.ReadFile. run_binds.
  destruct (fs w !! srcPath) as [[c|]|] eqn:Hsrc;
    try (intros [= <- <-]; by left). run_binds.
  unfold check_fs at 1.
  destruct (os.MkdirAll _ _) as [fs1|e] eqn:Hmk; [|intros [= <- <-]; by left].
  run_binds. unfold check_fs. simpl.
  destruct (os.WriteFile _ _ _) as [fs2|e] eqn:Hwr; intros [= <- <-];
    right; exists fs1; (split; [done|]); [|by left].
  right. exists c. split; [done|]. by apply WriteFile_Ok in Hwr as [-> _].
Qed.




(** ** Applying twice *)

Lemma syncFn_apply_Ok dst src p w w2 :
  run G = true → syncFn G dst src tt p w = (w2, Ok tt) →
  (is_output p = false ∧ w2 = w) ∨
  (∃ rel, is_output p = true ∧ filepath.Rel src p = Some rel ∧
          copyFile (filepath.Join dst rel) p (print w ["# " +:+ filepath.ToSlash rel])
          = (w2, Ok tt)).
Proof.
  intros Hrun. destruct (is_output p) eqn:Hout.
  - destruct (filepath.Rel src p) as [rel|] eqn:Hrel.
    + rewrite (syncFn_output _ _ _ _ _ Hout Hrel), Hrun. right. by exists rel.
    + unfold syncFn, check_Rel. unfold is_output in Hout.
      rewrite <- negb_orb, Hout, Hrel. cbn [negb]. by run_binds.
  - rewrite syncFn_not_output by done. intros [= <-]. by left.
Qed.

(** A pass that returned: what it printed, and that it kept every
    directory and every entry that is not the destination of a file it
    copied. *)
Lemma apply_pass_keeps dst src visited :
  run G = true →
  ∀ w w1,
    foldM (syncFn G dst src) tt visited w = (w1, Ok tt) →
    stdout w1 = stdout w ++ reported src visited ∧
    protoc_log w1 = protoc_log w ∧
    (∀ q, fs w !! q = Some Dir → fs w1 !! q = Some Dir) ∧
    (∀ q n, fs w !! q = Some n →
            (∀ p rel, p ∈ visited → is_output p = true →
                      filepath.Rel src p = Some rel → q ≠ filepath.Join dst rel) →
            fs w1 !! q = Some n).
Proof.
  intros Hrun. induction visited as [|p visited IH]; intros w w1; cbn [foldM].
  - intros [= <-]. by rewrite app_nil_r.
  - intros (w2 & [] & Hstep & Hrest)%bind_Ok.
    destruct (IH w2 w1 Hrest) as (Hout & Hlog & Hdirs & Hkeep).
    apply (syncFn_apply_Ok _ _ _ _ _ Hrun) in Hstep
      as [[Hno ->]|(rel & Hyes & Hrel & Hcopy)].
    + unfold reported. cbn [flat_map]. rewrite Hno. cbn [app].
      split; [done|]. split; [done|]. split; [done|].
      intros q n Hq Hne. apply Hkeep; [done|].
      intros p' rel' Hp'. apply Hne. by right.
    + apply copyFile_effect in Hcopy
        as (Hout2 & Hlog2 & _ & Hdirs2 & Hkeep2 & _ & _).
      simpl in Hout2, Hlog2, Hdirs2, Hkeep2.
      split.
      { rewrite Hout, Hout2. unfold reported. cbn [flat_map].
        rewrite Hyes, Hrel, <- app_assoc. done. }
      split; [congruence|].
      split; [by intros q Hq; apply Hdirs, Hdirs2|].
      intros q n Hq Hne. apply Hkeep.
      * apply Hkeep2; [|done]. apply (Hne p rel); [by left|done..].
      * intros p' rel' Hp'. apply Hne. by right.
Qed.

(** A pass that returned and left the staged tree as it found it: each
    file it copied is settled at its destination, with the contents the
    staged tree has for it. *)
Lemma apply_pass_settles dst src visited :
  run G = true → NoDup visited →
  ∀ w w1,
    foldM (syncFn G dst src) tt visited w = (w1, Ok tt) →
    (∀ q, src `prefix_of` q → fs w1 !! q = fs w !! q) →
    ∀ p rel, p ∈ visited → is_output p = true → filepath.Rel src p = Some rel →
      ∃ c, fs w !! p = Some (File c) ∧ settled (fs w1) (filepath.Join dst rel) c.
Proof.
  intros Hrun. induction 1 as [|p visited Hnotin Hnodup IH]; intros w w1; cbn [foldM].
  - intros _ _ p rel ?%elem_of_nil. done.
  - intros (w2 & [] & Hstep & Hrest)%bind_Ok Hsame.
    destruct (apply_pass_keeps dst src visited Hrun w2 w1 Hrest)
      as (_ & _ & Hdirs & Hkeep).
    apply (syncFn_apply_Ok _ _ _ _ _ Hrun) in Hstep
      as [[Hno ->]|(rel & Hyes & Hrel & Hcopy)].
    + intros p' rel' [->|Hp']%elem_of_cons Hyes' Hrel'; [congruence|].
      by apply (IH w w1).
    + apply copyFile_effect in Hcopy
        as (_ & _ & (c & Hsrc & Hset) & _ & _ & _ & Hnew).
      simpl in Hsrc, Hnew. destruct Hset as [Hfile Hchain].
      (* the file just written is not written again *)
      assert (Hfile1 : fs w1 !! filepath.Join dst rel = Some (File c)).
      { apply Hkeep; [done|]. intros p'' rel'' Hp'' _ Hrel'' Heq.
        apply app_inv_head in Heq as ->.
        apply Rel_Some in Hrel, Hrel''. congruence. }
      (* so this step left the staged tree as it was *)
      assert (Hsame2 : ∀ q, src `prefix_of` q → fs w2 !! q = fs w !! q).
      { intros q Hq. destruct (decide (q = filepath.Join dst rel)) as [->|Hne].
        - rewrite <- (Hsame _ Hq). congruence.
        - destruct (Hnew q Hne) as [?|[Hnone Hdir]]; [done|].
          apply Hdirs in Hdir. rewrite (Hsame _ Hq) in Hdir. congruence. }
      intros p' rel' [->|Hp']%elem_of_cons Hyes' Hrel'.
      * assert (rel' = rel) as -> by congruence.
        exists c. split; [done|]. split; [done|].
        intros q Hq. by apply Hdirs, Hchain.
      * destruct (IH w2 w1 Hrest) with (p := p') (rel := rel')
          as (c' & Hsrc' & Hset'); try done.
        { intros q Hq. rewrite (Hsame _ Hq). symmetry. by apply Hsame2. }
        exists c'. split; [|done]. rewrite <- Hsame2; [done|].
        exists rel'. by apply Rel_Some.
Qed.

(** A pass over files that are all settled at their destinations prints
    its lines and changes nothing. *)
Lemma apply_pass_two dst src visited (w1 : World) :
  run G = true →
  (∀ p, p ∈ visited → is_output p = true →
     ∃ rel c, filepath.Rel src p = Some rel ∧ fs w1 !! p = Some (File c) ∧
              settled (fs w1) (filepath.Join dst rel) c) →
  ∀ w, fs w = fs w1 →
       foldM (syncFn G dst src) tt visited w = (print w (reported src visited), Ok tt).
Proof.
  intros Hrun. induction visited as [|p visited IH]; intros Hall w Hfs; cbn [foldM].
  - by rewrite print_nil.
  - rewrite bind_run. unfold reported. cbn [flat_map]. fold (reported src visited).
    assert (Hall' : ∀ p', p' ∈ visited → is_output p' = true →
       ∃ rel c, filepath.Rel src p' = Some rel ∧ fs w1 !! p' = Some (File c) ∧
                settled (fs w1) (filepath.Join dst rel) c).
    { intros p' Hp'. apply Hall. by right. }
    destruct (is_output p) eqn:Hout.
    + destruct (Hall p) as (rel & c & Hrel & Hsrc & Hset); [by left|done|].
      rewrite (syncFn_output _ _ _ _ _ Hout Hrel), Hrun, Hrel.
      rewrite (copyFile_id _ _ c); [|simpl; by rewrite Hfs..].
      rewrite IH by done. by rewrite print_print.
    + rewrite syncFn_not_output by done. by apply IH.
Qed.

Lemma below_lookup (src : Path) (fs1 fs2 : FS) :
  filepath.below src fs1 = filepath.below src fs2 →
  ∀ q, src `prefix_of` q → fs1 !! q = fs2 !! q.
Proof.
  intros Heq q Hq.
  assert (filepath.below src fs1 !! q = filepath.below src fs2 !! q) as Hl
    by (by rewrite Heq).
  unfold filepath.below in Hl. rewrite !map_lookup_filter in Hl.
  destruct (fs1 !! q) as [n1|], (fs2 !! q) as [n2|]; simpl in Hl;
    rewrite ?option_guard_True in Hl by done; done.
Qed.

(** C6.  Let a pass of the sync engine in apply mode return, and let the
    staged tree be the same after it as before it, so that a second pass
    applies the same staged tree.  The second pass, from the world the
    first one left, returns too, prints the same lines, with the same
    relative paths in the same order, and changes no file: the destination
    holds what the first pass left. *)
Theorem syncOutput_apply_twice (dstDir srcDir : Path) (w w1 : World) :
  run G = true →
  syncOutput G dstDir srcDir w = (w1, Ok tt) →
  filepath.below srcDir (fs w1) = filepath.below srcDir (fs w) →
  stdout w1 = stdout w ++ reported srcDir (filepath.Walk srcDir (fs w)) ∧
  syncOutput G dstDir srcDir w1
  = (print w1 (reported srcDir (filepath.Walk srcDir (fs w))), Ok tt).
Proof.
  intros Hrun Hfirst Hbelow. pose proof (below_lookup _ _ _ Hbelow) as Hsame.
  clear Hbelow. unfold syncOutput, Walk in *.
  destruct (apply_pass_keeps dstDir srcDir _ Hrun w w1 Hfirst) as (Hout & _).
  split; [done|].
  rewrite (Walk_agree srcDir (fs w1) (fs w)) by done.
  apply (apply_pass_two dstDir srcDir _ w1 Hrun); [|done].
  intros p Hp Hyes.
  destruct (Rel_prefix srcDir p (Walk_prefix _ _ _ Hp)) as [rel Hrel].
  destruct (apply_pass_settles dstDir srcDir _ Hrun (Walk_NoDup srcDir (fs w))
              w w1 Hfirst Hsame p rel Hp Hyes Hrel) as (c & Hsrc & Hset).
  exists rel, c. split; [done|]. split; [|done].
  rewrite Hsame; [done|]. by eapply Walk_prefix.
Qed.

(** ** What is passed to the toolchain *)

Lemma calls_quiet {A} Q (m : M A) :
  (∀ w, protoc_log (m w).1 = protoc_log w) → calls Q m.
Proof. intros Hq w. exists []. by rewrite Hq, app_nil_r. Qed.

Lemma calls_bind {A B} Q (m : M A) (k : A → M B) :
  calls Q m → (∀ a, calls Q (k a)) → calls Q (m ≫= k).
Proof.
  intros Hm Hk w. rewrite bind_run.
  destruct (Hm w) as (new1 & Hlog1 & HQ1).
  destruct (m w) as [w1 [a|e]]; simpl in *; [|by exists new1].
  destruct (Hk a w1) as (new2 & Hlog2 & HQ2).
  exists (new1 ++ new2). rewrite Hlog2, Hlog1, <- app_assoc.
  split; [done | by apply Forall_app].
Qed.

Lemma calls_foldM {S A} Q (f : S → A → M S) l :
  (∀ s x, x ∈ l → calls Q (f s x)) → ∀ s, calls Q (foldM f s l).
Proof.
  induction l as [|x l IH]; intros Hf s; simpl.
  - by apply calls_quiet.
  - apply calls_bind; [apply Hf; left|].
    intros s'. apply IH. intros ???. apply Hf. by right.
Qed.

Lemma calls_protoc (Q : Invocation → Prop) plugins args :
  (∀ err, Q {| inv_plugins := plugins; inv_args := args; inv_err := err |}) →
  calls Q (protoc G plugins args).
Proof.
  intros HQ w. unfold protoc. set (fin := protoc_exec _ _ _).
  exists [{| inv_plugins := plugins; inv_args := args; inv_err := cmd_err fin |}].
  split; [by destruct (cmd_err fin) | constructor; [apply HQ | constructor]].
Qed.

Lemma calls_gen_test Q tmpDir d subDirs : calls Q (gen_test G tmpDir d subDirs).
Proof.
  unfold gen_test. case_decide; [|by apply calls_quiet].
  apply calls_bind; [by apply calls_quiet|]. intros ranged.
  apply calls_bind; [by apply calls_quiet|]. intros b.
  apply calls_quiet. intros w. unfold check_fs. by destruct (os.WriteFile _ _ _).
Qed.

Lemma calls_check_Rel Q base target : calls Q (check_Rel base target).
Proof. by apply calls_quiet. Qed.

Lemma calls_check_fs Q f : calls Q (check_fs f).
Proof. apply calls_quiet. intros w. unfold check_fs. by destruct (f (fs w)). Qed.

Lemma calls_localFn_plugins d dstDir srcDir subDirs srcPath :
  calls (λ i, inv_plugins i = local_plugins d)
    (localFn G d dstDir srcDir subDirs srcPath).
Proof.
  unfold localFn. destruct (negb _ || _); [by apply calls_quiet|].
  apply calls_bind; [apply calls_check_Rel|]. intros relPath.
  apply calls_bind; [apply calls_check_Rel|]. intros srcRelPath.
  case_decide; [by apply calls_quiet|].
  apply calls_bind; [by apply calls_quiet|]. intros mapOpt.
  apply calls_bind; [|intros; by apply calls_quiet].
  by apply calls_protoc.
Qed.

(** C1, as the code has it.  Every toolchain call made for a job names
    the plugins [go] when the grpc flag of the job is unset and [go,gogrpc]
    when it is set. *)
Theorem local_job_plugins (tmpDir : Path) (d : Job) (w : World) :
  ∃ new, protoc_log (generateLocalDir G tmpDir d w).1 = protoc_log w ++ new ∧
         Forall (λ i, inv_plugins i = if grpcPlugin d then "go,gogrpc" else "go") new.
Proof.
  assert (Hp : local_plugins d = if grpcPlugin d then "go,gogrpc" else "go").
  { unfold local_plugins. by destruct (grpcPlugin d). }
  rewrite <- Hp. clear Hp. revert w. unfold generateLocalDir.
  apply calls_bind; [apply calls_check_fs|]. intros _.
  apply calls_bind; [|intros; apply calls_gen_test].
  intros w. unfold Walk. apply calls_foldM. intros. apply calls_localFn_plugins.
Qed.

(** ** Files that are skipped *)

Lemma calls_check_bind {A B} Q (r : Result A) (k : A → M B) :
  (∀ a, r = Ok a → calls Q (k a)) → calls Q (check r ≫= k).
Proof.
  intros Hk w. rewrite bind_run. unfold check. destruct r as [a|e].
  - by apply Hk.
  - exists []. by rewrite app_nil_r.
Qed.

Lemma calls_localFn_kept d dstDir srcDir subDirs srcPath :
  calls (λ i, ∃ rel, skipped G d srcPath = false ∧
                     filepath.Rel (repoRoot G) srcPath = Some rel ∧
                     last (inv_args i) = Some (filepath.ToSlash rel))
    (localFn G d dstDir srcDir subDirs srcPath).
Proof.
  unfold localFn.
  destruct (negb _) eqn:Hsuf; cbn [orb]; [by apply calls_quiet|].
  destruct (regexp.MatchString _ _) eqn:Hrx; [by apply calls_quiet|].
  unfold check_Rel at 1. apply calls_check_bind. intros relPath Hrel.
  apply calls_bind; [apply calls_check_Rel|]. intros srcRelPath.
  case_decide as Hex; [by apply calls_quiet|].
  apply calls_bind; [by apply calls_quiet|]. intros mapOpt.
  apply calls_bind; [|intros; by apply calls_quiet].
  apply calls_protoc. intros err. exists relPath. simpl.
  destruct (filepath.Rel (repoRoot G) srcPath) as [rel|] eqn:Hr; [|done].
  injection Hrel as ->. unfold skipped. rewrite Hrx, Hr. cbn [orb].
  by rewrite bool_decide_eq_false_2.
Qed.

Lemma localFn_skipped d dstDir srcDir subDirs srcPath w :
  skipped G d srcPath = true → srcDir `prefix_of` srcPath →
  ∃ subDirs', localFn G d dstDir srcDir subDirs srcPath w = (w, Ok subDirs').
Proof.
  intros Hskip [srel ->]. unfold localFn.
  destruct (negb _) eqn:Hsuf; cbn [orb]; [by eexists|].
  unfold skipped in Hskip.
  destruct (regexp.MatchString _ _) eqn:Hrx; [by eexists|]. cbn [orb] in Hskip.
  unfold check_Rel.
  destruct (filepath.Rel (repoRoot G) _) as [rel|] eqn:Hr; [|discriminate Hskip].
  apply bool_decide_eq_true_1 in Hskip.
  rewrite Rel_app. run_binds.
  rewrite decide_True by done. by eexists.
Qed.

(** The world and the panic of the callback do not depend on the
    sub-directories collected so far. *)
Lemma localFn_same_world d dstDir srcDir s1 s2 srcPath w :
  (localFn G d dstDir srcDir s1 srcPath w).1
  = (localFn G d dstDir srcDir s2 srcPath w).1 ∧
  panicked (localFn G d dstDir srcDir s1 srcPath w).2
  = panicked (localFn G d dstDir srcDir s2 srcPath w).2.
Proof.
  unfold localFn. destruct (_ || _); [done|].
  rewrite !bind_run. unfold check_Rel, check.
  destruct (filepath.Rel (repoRoot G) srcPath); [|done].
  rewrite !bind_run. destruct (filepath.Rel srcDir srcPath); [|done].
  case_decide; [done|]. rewrite !bind_run, protoMapOpt_run. rewrite !bind_run.
  by destruct (protoc _ _ _ _) as [? [[]|?]].
Qed.

Lemma foldM_localFn_skip d dstDir srcDir visited :
  Forall (λ p, srcDir `prefix_of` p) visited →
  ∀ s1 s2 w,
    (foldM (localFn G d dstDir srcDir) s1 visited w).1
    = (foldM (localFn G d dstDir srcDir) s2
         (filter (λ p, skipped G d p = false) visited) w).1 ∧
    panicked (foldM (localFn G d dstDir srcDir) s1 visited w).2
    = panicked (foldM (localFn G d dstDir srcDir) s2
         (filter (λ p, skipped G d p = false) visited) w).2.
Proof.
  induction 1 as [|p visited Hp _ IH]; intros s1 s2 w; [done|].
  rewrite filter_cons. cbn [foldM]. rewrite bind_run.
  destruct (skipped G d p) eqn:Hskip.
  - destruct (localFn_skipped d dstDir srcDir s1 p w Hskip Hp) as [s1' ->].
    rewrite decide_False by done. apply IH.
  - rewrite decide_True by done. cbn [foldM]. rewrite bind_run.
    destruct (localFn_same_world d dstDir srcDir s1 s2 p w) as [Hw Hr].
    destruct (localFn G d dstDir srcDir s1 p w) as [w1 [s1'|e1]],
             (localFn G d dstDir srcDir s2 p w) as [w2 [s2'|e2]];
      simpl in *; subst; done.
Qed.

(** C4.  In the walk of a job, every toolchain call is made for a visited
    file that is not skipped, with that file's path relative to the
    repository root as its last argument; and the walk leaves the world,
    staging directory included, and panics or not, exactly as a walk that
    never meets the skipped files. *)
Theorem skipped_files_never_reach_the_toolchain
  (d : Job) (dstDir srcDir : Path) (w : World) :
  let visited := filepath.Walk srcDir (fs w) in
  let pass := Walk srcDir (localFn G d dstDir srcDir) ∅ w in
  let pass' := foldM (localFn G d dstDir srcDir) ∅
                 (filter (λ p, skipped G d p = false) visited) w in
  (∃ new, protoc_log pass.1 = protoc_log w ++ new ∧
          Forall (λ i, ∃ p rel, p ∈ visited ∧ skipped G d p = false ∧
                                filepath.Rel (repoRoot G) p = Some rel ∧
                                last (inv_args i) = Some (filepath.ToSlash rel)) new) ∧
  pass.1 = pass'.1 ∧ panicked pass.2 = panicked pass'.2.
Proof.
  intros visited pass pass'. split.
  - assert (Hcalls : ∀ s,
      calls (λ i, ∃ p rel, p ∈ visited ∧ skipped G d p = false ∧
                           filepath.Rel (repoRoot G) p = Some rel ∧
                           last (inv_args i) = Some (filepath.ToSlash rel))
        (foldM (localFn G d dstDir srcDir) s visited)).
    { apply calls_foldM. intros s p Hp w'.
      destruct (calls_localFn_kept d dstDir srcDir s p w') as (new & Hlog & HQ).
      exists new. split; [done|].
      eapply Forall_impl; [exact HQ|]. intros i (rel & ? & ? & ?). by exists p, rel. }
    apply (Hcalls ∅ w).
  - apply foldM_localFn_skip, Forall_forall. intros p. apply Walk_prefix.
Qed.

(** ** The generated test of a testdata directory *)






(** The sub-directories a walk has collected. *)
Lemma localFn_Ok_subDirs d dstDir srcDir s p w w1 s1 :
  localFn G d dstDir srcDir s p w = (w1, Ok s1) →
  (s1 = s ∧ (strings.HasSuffix (filepath.String p) ".proto" = false ∨
             regexp.MatchString excludeRx (filepath.String p) = true)) ∨
  (strings.HasSuffix (filepath.String p) ".proto" = true ∧
   regexp.MatchString excludeRx (filepath.String p) = false ∧
   ∃ srel, filepath.Rel srcDir p = Some srel ∧ s1 = {[filepath.Dir srel]} ∪ s).
Proof.
  unfold localFn.
  destruct (strings.HasSuffix _ _) eqn:Hsuf; cbn [negb orb];
    [|intros [= <- <-]; left; auto].
  destruct (regexp.MatchString _ _) eqn:Hrx; [intros [= <- <-]; left; auto|].
  unfold check_Rel. run_binds.
  destruct (filepath.Rel (repoRoot G) p) as [rel|]; [|done]. run_binds.
  destruct (filepath.Rel srcDir p) as [srel|]; [|done]. run_binds.
  intros Hrest. right. split; [done|]. split; [done|]. exists srel. split; [done|].
  case_decide.
  - by injection Hrest as <- <-.
  - revert Hrest. rewrite bind_run, protoMapOpt_run. run_binds.
    destruct (protoc _ _ _ _) as [w2 [[]|e]]; [|done].
    by intros [= <- <-].
Qed.

Lemma foldM_localFn_Ok_subDirs d dstDir srcDir visited :
  ∀ s w w1 s1,
    foldM (localFn G d dstDir srcDir) s visited w = (w1, Ok s1) →
    ∀ sd, sd ∈ s1 ↔
      sd ∈ s ∨
      ∃ p srel, p ∈ visited ∧
        strings.HasSuffix (filepath.String p) ".proto" = true ∧
        regexp.MatchString excludeRx (filepath.String p) = false ∧
        filepath.Rel srcDir p = Some srel ∧ sd = filepath.Dir srel.
Proof.
  induction visited as [|q visited IH]; intros s w w1 s1; cbn [foldM].
  - intros [= <- <-] sd. split; [by left|].
    intros [?|(p & ? & []%elem_of_nil & _)]. done.
  - intros (w2 & s2 & Hq & Hrest)%bind_Ok sd.
    rewrite (IH _ _ _ _ Hrest sd).
    apply localFn_Ok_subDirs in Hq
      as [[-> Hskip]|(Hsuf & Hrx & srel & Hrel & ->)].
    + split.
      * intros [?|(p & srel & Hp & ?)]; [by left|].
        right. exists p, srel. split; [by right | done].
      * intros [?|(p & srel & [->|Hp]%elem_of_cons & Hsuf & Hrx & ?)]; [by left|..].
        -- destruct Hskip; congruence.
        -- right. by exists p, srel.
    + split.
      * intros [[->%elem_of_singleton|?]%elem_of_union|(p & srel' & Hp & ?)].
        -- right. exists q, srel. split; [by left | done].
        -- by left.
        -- right. exists p, srel'. split; [by right | done].
      * intros [?|(p & srel' & [->|Hp]%elem_of_cons & Hsuf' & Hrx' & Hrel' & ->)].
        -- left. apply elem_of_union. by right.
        -- left. apply elem_of_union. left. apply elem_of_singleton. congruence.
        -- right. by exists p, srel'.
Qed.


(** ** Sub-directories of excluded files *)

Lemma localFn_excluded d dstDir srcDir p rel srel :
  strings.HasSuffix (filepath.String p) ".proto" = true →
  regexp.MatchString excludeRx (filepath.String p) = false →
  filepath.Rel (repoRoot G) p = Some rel →
  filepath.ToSlash rel ∈ exclude d →
  filepath.Rel srcDir p = Some srel →
  ∀ s w, localFn G d dstDir srcDir s p w = (w, Ok ({[filepath.Dir srel]} ∪ s)).
Proof.
  intros Hsuf Hrx Hrel Hex Hsrel s w. unfold localFn, check_Rel.
  rewrite Hsuf, Hrx, Hrel, Hsrel. cbn [negb orb]. run_binds.
  by rewrite decide_True.
Qed.


(** ** Failures *)



End with_externals.

Import sample_world.

(** C1 as stated fails: the job of the gRPC test data has its grpc flag
    set, and the call made for its one file does not name [go,grpc]. *)
Lemma local_job_plugins_counterexample :
  ¬ ∀ d, d ∈ dirs →
      Forall (λ i, inv_plugins i = described_plugins d)
        (protoc_log (generateLocalDir (G false) ["r"; "tmp1"] d (start repo)).1).
Proof.
  intros Hall.
  specialize (Hall {| job_path := "cmd/protoc-gen-go-grpc/testdata"; grpcPlugin := true;
                      annotateFor := ∅; exclude := ∅ |}).
  assert (Hin : {| job_path := "cmd/protoc-gen-go-grpc/testdata"; grpcPlugin := true;
                   annotateFor := ∅; exclude := ∅ |} ∈ dirs).
  { unfold dirs. right. left. }
  specialize (Hall Hin). revert Hall. vm_compute. intros Hall.
  inversion Hall as [|?? Heq _]. discriminate Heq.
Qed.




(** ** The theorems at the sample worlds *)


Lemma syncOutput_apply_twice_witness :
  run (G true) = true ∧
  stdout (syncOutput (G true) ["r"] ["r"; "tmp1"] (start staged)).1
  = stdout (start staged) ++
    reported ["r"; "tmp1"] (filepath.Walk ["r"; "tmp1"] (fs (start staged))) ∧
  syncOutput (G true) ["r"] ["r"; "tmp1"]
    (syncOutput (G true) ["r"] ["r"; "tmp1"] (start staged)).1
  = (print (syncOutput (G true) ["r"] ["r"; "tmp1"] (start staged)).1
       (reported ["r"; "tmp1"] (filepath.Walk ["r"; "tmp1"] (fs (start staged)))),
     Ok tt).
Proof.
  split; [reflexivity|].
  apply (syncOutput_apply_twice (G true) ["r"] ["r"; "tmp1"] (start staged)
           (syncOutput (G true) ["r"] ["r"; "tmp1"] (start staged)).1).
  - reflexivity.
  - apply returned. vm_compute. reflexivity.
  - refine (bool_decide_unpack _ _). vm_compute. exact I.
Defined.



End batch_facts.

(** * More of the generator: copies, passes and calls *)

Module extra_facts.
Import batch_terms batch_facts extra_terms.

Ltac run_binds :=
  repeat first [rewrite bind_run | progress (unfold check) | progress (cbn beta iota)].

(** ** Strings *)

Lemma app_String a s t : String a s +:+ t = String a (s +:+ t).
Proof. reflexivity. Qed.

Lemma app_empty_r s : s +:+ "" = s.
Proof. induction s as [|a s IH]; [done|]. by rewrite app_String, IH. Qed.

Lemma app_assoc_s s t u : (s +:+ t) +:+ u = s +:+ (t +:+ u).
Proof. induction s as [|a s IH]; [done|]. by rewrite !app_String, IH. Qed.

Lemma rev_app_rev_app x cur acc :
  String.rev_app (String.rev_app x cur) acc = String.rev_app cur (x +:+ acc).
Proof.
  revert cur acc. induction x as [|a x IH]; intros cur acc; [done|].
  cbn [String.rev_app]. by rewrite IH.
Qed.

Lemma rev_rev s : String.rev (String.rev s) = s.
Proof. unfold String.rev. rewrite rev_app_rev_app. simpl. apply app_empty_r. Qed.

Lemma rev_app_append s t acc :
  String.rev_app (s +:+ t) acc = String.rev_app t (String.rev_app s acc).
Proof.
  revert acc. induction s as [|a s IH]; intros acc; [done|].
  rewrite app_String. cbn [String.rev_app]. apply IH.
Qed.

Lemma match_here_app rx s t :
  regexp.match_here rx s = true → regexp.match_here rx (s +:+ t) = true.
Proof.
  revert s. induction rx as [|c rx IH]; intros s.
  - intros _. by destruct (s +:+ t).
  - destruct s as [|a s]; cbn [regexp.match_here]; [done|].
    rewrite app_String. cbn [regexp.match_here].
    intros [-> Hs]%andb_true_iff. cbn [andb]. by apply IH.
Qed.

Lemma MatchString_app rx s t :
  regexp.MatchString rx s = true → regexp.MatchString rx (s +:+ t) = true.
Proof.
  induction s as [|a s IH].
  - cbn [regexp.MatchString]. rewrite orb_false_r. intros Hm.
    pose proof (match_here_app rx "" t Hm) as Ht. change ("" +:+ t) with t in *.
    destruct t; cbn [regexp.MatchString]; by rewrite Ht.
  - rewrite app_String. cbn [regexp.MatchString].
    intros [Hm|Hm]%orb_true_iff; apply orb_true_iff.
    + left. by apply (match_here_app rx (String a s) t).
    + right. by apply IH.
Qed.

Lemma Join_app l1 l2 sep :
  l1 ≠ [] → l2 ≠ [] →
  strings.Join (l1 ++ l2) sep = strings.Join l1 sep +:+ sep +:+ strings.Join l2 sep.
Proof.
  intros Hl1 Hl2. induction l1 as [|x [|y l1] IH]; [done|..].
  - destruct l2 as [|z l2]; done.
  - change (strings.Join ((x :: y :: l1) ++ l2) sep)
      with (x +:+ sep +:+ strings.Join ((y :: l1) ++ l2) sep).
    rewrite IH by done.
    change (strings.Join (x :: y :: l1) sep)
      with (x +:+ sep +:+ strings.Join (y :: l1) sep).
    by rewrite !app_assoc_s.
Qed.

(** A path below [p] has a string that starts with the string of [p]. *)
Lemma String_below (p rest : Path) :
  p ≠ [] → ∃ t, filepath.String (p ++ rest) = filepath.String p +:+ t.
Proof.
  intros Hp. destruct rest as [|c rest].
  - exists "". by rewrite app_nil_r, app_empty_r.
  - exists ("/" +:+ strings.Join (c :: rest) "/"). unfold filepath.String.
    rewrite Join_app by done. by rewrite !app_assoc_s.
Qed.

Lemma Split_go_no_sep sep cur x s :
  has_byte sep x = false →
  strings.Split_go sep cur (x +:+ s) = strings.Split_go sep (String.rev_app x cur) s.
Proof.
  revert cur. induction x as [|a x IH]; intros cur; [done|].
  cbn [has_byte]. intros [Ha Hx]%orb_false_iff.
  apply bool_decide_eq_false_1 in Ha.
  rewrite app_String. cbn [strings.Split_go String.rev_app].
  rewrite decide_False by (by intros ->). by apply IH.
Qed.

(** Splitting what was joined gives the elements back, when no element
    holds the separator and there is at least one element. *)
Lemma Split_Join sep l :
  l ≠ [] → Forall (λ x, has_byte sep x = false) l →
  strings.Split (strings.Join l (String sep "")) sep = l.
Proof.
  intros Hne Hall. unfold strings.Split.
  induction Hall as [|x l Hx Hall IH]; [done|].
  destruct l as [|y l].
  - cbn [strings.Join]. rewrite <- (app_empty_r x) at 1.
    rewrite Split_go_no_sep by done. cbn [strings.Split_go].
    change (String.rev_app x "") with (String.rev x). by rewrite rev_rev.
  - change (strings.Join (x :: y :: l) (String sep ""))
      with (x +:+ String sep "" +:+ strings.Join (y :: l) (String sep "")).
    rewrite Split_go_no_sep by done. rewrite app_String.
    cbn [strings.Split_go]. rewrite decide_True by done.
    change ("" +:+ strings.Join (y :: l) (String sep ""))
      with (strings.Join (y :: l) (String sep "")).
    rewrite IH by done. f_equal.
    change (String.rev_app x "") with (String.rev x). apply rev_rev.
Qed.

Section with_externals.
Context `{!Externals}.
Variable G : Globals.

(** ** [copyFile] *)

(** X1.  When a copy returns, the destination holds what the source held,
    the source is as it was, and any other path either is as it was or
    is a directory above the destination that was missing and was made. *)
Theorem copyFile_returned (dstPath srcPath : Path) (w w' : World) :
  copyFile dstPath srcPath w = (w', Ok tt) →
  (∃ c, fs w !! srcPath = Some (File c) ∧ fs w' !! dstPath = Some (File c)) ∧
  fs w' !! srcPath = fs w !! srcPath ∧
  (∀ q, q ≠ dstPath →
        fs w' !! q = fs w !! q ∨
        (q `prefix_of` dstPath ∧ fs w !! q = None ∧ fs w' !! q = Some Dir)) ∧
  stdout w' = stdout w ∧ protoc_log w' = protoc_log w.
Proof.
  intros Hcopy.
  destruct (copyFile_effect _ _ _ _ Hcopy)
    as (Hout & Hlog & (c & Hsrc & Hfile & _) & _ & _ & Hframe & Hnew).
  split; [by exists c|]. split; [|split; [|done]].
  - destruct (decide (srcPath = dstPath)) as [->|Hne]; [congruence|].
    destruct (Hnew srcPath Hne) as [?|[Hnone _]]; congruence.
  - intros q Hne. destruct (Hnew q Hne) as [?|[Hnone Hdir]]; [by left|].
    right. split; [|done].
    destruct (decide (q `prefix_of` dstPath)) as [?|Hnp]; [done|].
    rewrite (Hframe q Hnp) in Hdir. congruence.
Qed.

(** X2.  A copy whose source is not a regular file panics before it
    touches anything: the world is the one it was given, and no directory
    of the destination has been made.  The error is that of the read of a
    directory when the source is one, and that of the open of a missing
    file otherwise. *)
Theorem copyFile_without_source (dstPath srcPath : Path) (w : World) :
  (∀ c, fs w !! srcPath ≠ Some (File c)) →
  copyFile dstPath srcPath w
  = (w, Panic (PathError (match fs w !! srcPath with
                          | Some Dir => "read"
                          | _ => "open"
                          end) srcPath)).
Proof.
  intros Hno. unfold copyFile, os.ReadFile. run_binds.
  destruct (fs w !! srcPath) as [[c|]|] eqn:Hsrc; try done.
  by destruct (Hno c).
Qed.

(** X3.  A copy that returned can be repeated: the second copy returns
    and leaves the world of the first. *)
Theorem copyFile_twice (dstPath srcPath : Path) (w w' : World) :
  copyFile dstPath srcPath w = (w', Ok tt) →
  copyFile dstPath srcPath w' = (w', Ok tt).
Proof.
  intros Hcopy.
  destruct (copyFile_returned _ _ _ _ Hcopy) as ((c & Hsrc & _) & Hsame & _).
  destruct (copyFile_effect _ _ _ _ Hcopy) as (_ & _ & (c' & Hsrc' & Hset) & _).
  assert (c' = c) as -> by congruence.
  apply (copyFile_id _ _ c); [congruence | done].
Qed.

(** X4.  A copy, whether it returns or panics, changes no path that is
    not the destination or above it. *)
Theorem copyFile_changes_only_towards_destination
  (dstPath srcPath : Path) (w : World) (q : Path) :
  ¬ q `prefix_of` dstPath →
  fs (copyFile dstPath srcPath w).1 !! q = fs w !! q.
Proof.
  intros Hq. destruct (copyFile dstPath srcPath w) as [w' r] eqn:Hcopy. simpl.
  apply copyFile_any in Hcopy as [->|(fs1 & Hmk & Hw')]; [done|].
  apply MkdirAll_from_Ok in Hmk as [_ Hframe].
  assert (Hfs1 : fs1 !! q = fs w !! q).
  { destruct (Hframe q) as [?|(Hin & _)]; [done|].
    destruct Hq. apply chain_prefix in Hin. simpl in Hin.
    etrans; [exact Hin | apply removelast_prefix]. }
  destruct Hw' as [->|(c & _ & ->)]; [done|].
  rewrite lookup_insert_ne; [done|]. intros <-. by apply Hq.
Qed.

(** ** Passes of the sync engine *)

Lemma Walk_elem (root p : Path) (fs : FS) :
  is_Some (fs !! root) → root `prefix_of` p → is_Some (fs !! p) →
  p ∈ filepath.Walk root fs.
Proof.
  intros Hroot Hpre [n Hn]. unfold filepath.Walk. rewrite decide_True by done.
  rewrite merge_sort_Permutation, elem_of_elements, elem_of_dom.
  exists n. by apply map_lookup_filter_Some.
Qed.

Lemma reported_elem src visited p rel :
  p ∈ visited → is_output p = true → filepath.Rel src p = Some rel →
  "# " +:+ filepath.ToSlash rel ∈ reported src visited.
Proof.
  intros Hp Hout Hrel. unfold reported. apply list_elem_of_In, in_flat_map.
  exists p. split; [by apply list_elem_of_In|]. rewrite Hout, Hrel. by left.
Qed.

(** X5.  Let an apply pass over an existing staging root return and leave
    the staged tree as it found it.  Then every generated file of the
    staging tree, a regular file [srcDir/rel] whose name ends in .go or
    .meta, has been copied: [dstDir/rel] holds its contents and the line
    [# rel] has been printed. *)
Theorem syncOutput_applies_every_staged_file
  (dstDir srcDir rel : Path) (c : string) (w w1 : World) :
  run G = true →
  syncOutput G dstDir srcDir w = (w1, Ok tt) →
  filepath.below srcDir (fs w1) = filepath.below srcDir (fs w) →
  is_Some (fs w !! srcDir) →
  is_output (filepath.Join srcDir rel) = true →
  fs w !! filepath.Join srcDir rel = Some (File c) →
  fs w1 !! filepath.Join dstDir rel = Some (File c) ∧
  "# " +:+ filepath.ToSlash rel ∈ stdout w1.
Proof.
  intros Hrun Hpass Hbelow Hroot Hout Hfile.
  pose proof (below_lookup _ _ _ Hbelow) as Hsame. unfold syncOutput, Walk in Hpass.
  assert (Hp : filepath.Join srcDir rel ∈ filepath.Walk srcDir (fs w)).
  { apply Walk_elem; [done | by exists rel | by rewrite Hfile]. }
  pose proof (Rel_app srcDir rel) as Hrel.
  destruct (apply_pass_settles G dstDir srcDir _ Hrun (Walk_NoDup srcDir (fs w))
              w w1 Hpass Hsame _ rel Hp Hout Hrel) as (c' & Hsrc & Hset & _).
  destruct (apply_pass_keeps G dstDir srcDir _ Hrun w w1 Hpass) as (Hprinted & _).
  split; [congruence|].
  rewrite Hprinted. apply elem_of_app. right. by eapply reported_elem.
Qed.

Lemma syncFn_frame dstDir srcDir p w q :
  (∀ rel, is_output p = true → filepath.Rel srcDir p = Some rel →
          ¬ q `prefix_of` filepath.Join dstDir rel) →
  fs (syncFn G dstDir srcDir tt p w).1 !! q = fs w !! q.
Proof.
  intros Hq. destruct (is_output p) eqn:Hout;
    [|by rewrite syncFn_not_output by done].
  destruct (filepath.Rel srcDir p) as [rel|] eqn:Hrel.
  - rewrite (syncFn_output G _ _ _ _ _ Hout Hrel). destruct (run G); [|done].
    rewrite copyFile_changes_only_towards_destination; [done|]. by apply Hq.
  - unfold syncFn, check_Rel. unfold is_output in Hout.
    rewrite <- negb_orb, Hout, Hrel. cbn [negb]. by run_binds.
Qed.

Lemma foldM_syncFn_frame dstDir srcDir visited q :
  (∀ p rel, p ∈ visited → is_output p = true → filepath.Rel srcDir p = Some rel →
            ¬ q `prefix_of` filepath.Join dstDir rel) →
  ∀ w, fs (foldM (syncFn G dstDir srcDir) tt visited w).1 !! q = fs w !! q.
Proof.
  induction visited as [|p visited IH]; intros Hq w; cbn [foldM]; [done|].
  rewrite bind_run.
  pose proof (syncFn_frame dstDir srcDir p w q) as Hstep.
  destruct (syncFn G dstDir srcDir tt p w) as [w2 [[]|e]]; simpl in *.
  - rewrite IH.
    + apply Hstep. intros rel. apply Hq. by left.
    + intros p' rel Hp'. apply Hq. by right.
  - apply Hstep. intros rel. apply Hq. by left.
Qed.

Lemma sync_targets_elem dstDir srcDir fs0 p rel :
  p ∈ filepath.Walk srcDir fs0 → is_output p = true →
  filepath.Rel srcDir p = Some rel →
  filepath.Join dstDir rel ∈ sync_targets dstDir srcDir fs0.
Proof.
  intros Hp Hout Hrel. unfold sync_targets. apply list_elem_of_omap.
  exists p. split; [done|]. by rewrite Hout, Hrel.
Qed.

(** X6.  A pass of the sync engine that does not write into the tree it
    walks (no destination lies in the staging tree) leaves, in either mode
    and whether it returns or panics, the staging tree as it found it, and
    it changes no path that is neither the destination of a generated file
    of the staging tree nor above such a destination. *)
Theorem syncOutput_changes_only_destinations
  (dstDir srcDir : Path) (w : World) (q : Path) :
  staged_apart dstDir srcDir (fs w) →
  Forall (λ t, ¬ q `prefix_of` t) (sync_targets dstDir srcDir (fs w)) →
  filepath.below srcDir (fs (syncOutput G dstDir srcDir w).1)
  = filepath.below srcDir (fs w) ∧
  fs (syncOutput G dstDir srcDir w).1 !! q = fs w !! q.
Proof.
  intros Hapart Hq. unfold syncOutput, Walk. split.
  - apply map_eq. intros q'. unfold filepath.below. rewrite !map_lookup_filter.
    destruct (decide (srcDir `prefix_of` q')) as [Hq'|Hq'].
    + rewrite foldM_syncFn_frame; [done|].
      intros p rel Hp Hout Hrel Hpre.
      unfold staged_apart in Hapart. rewrite Forall_forall in Hapart.
      apply (Hapart _ (sync_targets_elem dstDir srcDir _ p rel Hp Hout Hrel)).
      by etrans.
    + destruct (fs (foldM _ _ _ _).1 !! q') as [n|], (fs w !! q') as [n'|]; cbn;
        by rewrite ?option_guard_False.
  - apply foldM_syncFn_frame. intros p rel Hp Hout Hrel.
    rewrite Forall_forall in Hq. apply Hq. by eapply sync_targets_elem.
Qed.

(** ** The walk of a job *)

(** X7.  When the walk of a job returns, the sub-directories it has found
    are exactly the directories, relative to the job's root, of the visited
    files whose names end in .proto and whose paths do not match the legacy
    expression: excluded files count, files of other kinds and legacy
    files do not. *)
Theorem walk_finds_directories_of_proto_files
  (d : Job) (dstDir srcDir : Path) (w w1 : World) (subDirs : gset Path) :
  Walk srcDir (localFn G d dstDir srcDir) ∅ w = (w1, Ok subDirs) →
  ∀ sd, sd ∈ subDirs ↔
    ∃ p srel, p ∈ filepath.Walk srcDir (fs w) ∧
      strings.HasSuffix (filepath.String p) ".proto" = true ∧
      regexp.MatchString excludeRx (filepath.String p) = false ∧
      filepath.Rel srcDir p = Some srel ∧ sd = filepath.Dir srel.
Proof.
  intros Hwalk sd. unfold Walk in Hwalk.
  rewrite (foldM_localFn_Ok_subDirs G _ _ _ _ _ _ _ _ Hwalk sd).
  split; [|by right]. by intros [?%not_elem_of_empty|?].
Qed.

(** ** The calls of the two passes, in order *)

Lemma protoc_logs plugins args w :
  ∃ err, protoc_log (protoc G plugins args w).1
         = protoc_log w ++ [{| inv_plugins := plugins; inv_args := args;
                               inv_err := err |}] ∧
         (err = None → (protoc G plugins args w).2 = Ok tt) ∧
         (err ≠ None → ∃ e, (protoc G plugins args w).2 = Panic e).
Proof.
  unfold protoc. set (fin := protoc_exec _ _ _). exists (cmd_err fin).
  destruct (cmd_err fin) as [e|]; simpl; (split; [done|]); split; try done.
  intros _. by exists e.
Qed.

Lemma protoPackages_no_comma :
  Forall (λ x, has_byte "," x = false) (map override_option protoPackages).
Proof. apply Forall_forall, Forall_forall. vm_compute. repeat constructor. Qed.

(** Whatever the order of a range, the option string lists the table. *)
Lemma mapOpt_at_table n : override_table (mapOpt_at n).
Proof.
  unfold override_table, mapOpt_at.
  change (λ kv : string * string, "M" +:+ kv.1 +:+ "=" +:+ kv.2) with override_option.
  assert (Hperm : map override_option (map_range n protoPackages)
                  ≡ₚ map override_option protoPackages).
  { apply fmap_Permutation, map_range_Permutation. }
  rewrite Split_Join; [done|..].
  - intros Hnil. rewrite Hnil in Hperm. by apply Permutation_nil_l in Hperm.
  - rewrite Hperm. apply protoPackages_no_comma.
Qed.

Lemma called_for_nil {A} (call : A → string → string * list string) :
  called_for call [] [].
Proof. exists []. by repeat split. Qed.

Lemma called_for_cons {A} (call : A → string → string * list string) i x o new items :
  override_table o → call_of i = call x o → called_for call new items →
  called_for call (i :: new) (x :: items).
Proof.
  intros Ho Hi (mapOpts & Hlen & Hall & Hnew). exists (o :: mapOpts).
  split; [cbn [length]; by rewrite Hlen|]. split; [by constructor|].
  cbn [map zip_with]. by rewrite Hi, Hnew.
Qed.

(** The calls of a loop whose body is one toolchain call with override
    options. *)
Lemma forM_protoc_calls {A} (call : A → string → string * list string) (l : list A) :
  ∀ w, ∃ new done,
    protoc_log (forM l (λ x, mapOpt ← protoMapOpt;
                             protoc G (call x mapOpt).1 (call x mapOpt).2) w).1
    = protoc_log w ++ new ∧
    done `prefix_of` l ∧ called_for call new done ∧
    (∀ u, (forM l (λ x, mapOpt ← protoMapOpt;
                        protoc G (call x mapOpt).1 (call x mapOpt).2) w).2 = Ok u →
          done = l).
Proof.
  induction l as [|x l IH]; intros w; unfold forM in *; cbn [foldM].
  - exists [], []. rewrite app_nil_r. split; [done|]. split; [done|].
    split; [apply called_for_nil | done].
  - rewrite !bind_run, protoMapOpt_run.
    set (o := mapOpt_at (ranges w)).
    destruct (protoc_logs (call x o).1 (call x o).2 (count_range w))
      as (err & Hlog & Hok & Hfail).
    destruct (protoc G (call x o).1 (call x o).2 (count_range w)) as [w2 [[]|e]];
      cbn [fst snd] in *.
    + destruct (IH w2) as (new & fin & Hlog2 & Hpre & Hcalled & Hall).
      exists ({| inv_plugins := (call x o).1; inv_args := (call x o).2;
                 inv_err := err |} :: new), (x :: fin).
      rewrite Hlog2, Hlog, <- app_assoc. split; [done|].
      split; [by apply prefix_cons|]. split.
      * apply (called_for_cons call _ x o); [apply mapOpt_at_table | | done].
        unfold call_of. cbn [inv_plugins inv_args]. by destruct (call x o).
      * intros u Hu. f_equal. by eapply Hall.
    + exists [{| inv_plugins := (call x o).1; inv_args := (call x o).2;
                 inv_err := err |}], [x].
      split; [exact Hlog|]. split; [apply prefix_cons, prefix_nil|].
      split; [|done].
      apply (called_for_cons call _ x o); [apply mapOpt_at_table | | apply called_for_nil].
      unfold call_of. cbn [inv_plugins inv_args]. by destruct (call x o).
Qed.

(** X8.  The loop over the targets of the remote pass calls the toolchain
    for the targets in the order of the list, once each, with the plugin
    [go], the target's prefix below the protobuf root as the only search
    path, override options and the staging directory as the output
    directory.  The override options are built anew for each call: each
    time they list the override table, in an order of their own.  The
    calls made are those for an initial part of the list, and for the
    whole of it when the loop returns. *)
Theorem remote_calls_in_list_order (tmpDir : Path) (w : World) :
  ∃ new done,
    protoc_log (generateRemoteFiles G tmpDir w).1 = protoc_log w ++ new ∧
    done `prefix_of` files ∧
    called_for (remote_call G tmpDir) new done ∧
    ((generateRemoteFiles G tmpDir w).2 = Ok tt → done = files).
Proof.
  destruct (forM_protoc_calls (remote_call G tmpDir) files w)
    as (new & fin & Hlog & Hpre & Hcalled & Hall).
  exists new, fin. split; [exact Hlog|]. split; [exact Hpre|].
  split; [exact Hcalled | apply Hall].
Qed.

Lemma localFn_calls d dstDir srcDir s p w :
  repoRoot G `prefix_of` p → srcDir `prefix_of` p →
  if generated G d p
  then ∃ err,
         protoc_log (localFn G d dstDir srcDir s p w).1
         = protoc_log w ++
           [{| inv_plugins := (local_call_for G d dstDir p (mapOpt_at (ranges w))).1;
               inv_args := (local_call_for G d dstDir p (mapOpt_at (ranges w))).2;
               inv_err := err |}]
  else ∃ s', localFn G d dstDir srcDir s p w = (w, Ok s').
Proof.
  intros [rel ->] Hsrc. destruct (Rel_prefix _ _ Hsrc) as [srel Hsrel].
  unfold generated, skipped, localFn, local_call_for, check_Rel.
  rewrite Rel_app, Hsrel. cbn [default].
  destruct (strings.HasSuffix _ _); cbn [negb orb andb]; [|by eexists].
  destruct (regexp.MatchString _ _); cbn [negb orb]; [by eexists|].
  run_binds. case_bool_decide as Hex; cbn [negb].
  - rewrite decide_True by done. by eexists.
  - rewrite decide_False by done. rewrite bind_run, protoMapOpt_run. run_binds.
    destruct (protoc_logs (local_plugins d)
                ["-I" +:+ path_Join [protoRoot G; "src"];
                 "-I" +:+ filepath.String (repoRoot G);
                 "--go_out=" +:+
                   (if decide (filepath.ToSlash rel ∈ annotateFor d)
                    then ("paths=source_relative," +:+ mapOpt_at (ranges w))
                         +:+ ",annotate_code"
                    else "paths=source_relative," +:+ mapOpt_at (ranges w)) +:+
                   ":" +:+ filepath.String dstDir;
                 filepath.ToSlash rel] (count_range w)) as (err & Hlog & _).
    exists err. unfold local_call, local_plugins in *. simpl.
    destruct (protoc _ _ _ _) as [w2 [[]|e]]; simpl in *;
      rewrite Hlog; by destruct (grpcPlugin d).
Qed.

Lemma foldM_localFn_calls d dstDir srcDir visited :
  Forall (λ p, repoRoot G `prefix_of` p ∧ srcDir `prefix_of` p) visited →
  ∀ s w, ∃ new done,
    protoc_log (foldM (localFn G d dstDir srcDir) s visited w).1
    = protoc_log w ++ new ∧
    done `prefix_of` List.filter (generated G d) visited ∧
    called_for (local_call_for G d dstDir) new done ∧
    (∀ s', (foldM (localFn G d dstDir srcDir) s visited w).2 = Ok s' →
           done = List.filter (generated G d) visited).
Proof.
  induction 1 as [|p visited [Hrepo Hsrc] _ IH]; intros s w; cbn [foldM List.filter].
  - exists [], []. rewrite app_nil_r. split; [done|]. split; [done|].
    split; [apply called_for_nil | done].
  - rewrite bind_run.
    pose proof (localFn_calls d dstDir srcDir s p w Hrepo Hsrc) as Hstep.
    destruct (generated G d p).
    + destruct Hstep as (err & Hlog).
      destruct (localFn G d dstDir srcDir s p w) as [w2 [s2|e]]; cbn [fst snd] in *.
      * destruct (IH s2 w2) as (new & fin & Hlog2 & Hpre & Hcalled & Hall).
        eexists (_ :: new), (p :: fin). rewrite Hlog2, Hlog, <- app_assoc.
        split; [done|]. split; [by apply prefix_cons|]. split.
        -- apply (called_for_cons _ _ p (mapOpt_at (ranges w)));
             [apply mapOpt_at_table | | done].
           unfold call_of. cbn [inv_plugins inv_args].
           by destruct (local_call_for G d dstDir p _).
        -- intros s' Hs'. f_equal. by eapply Hall.
      * eexists [_], [p]. split; [exact Hlog|].
        split; [apply prefix_cons, prefix_nil|]. split; [|done].
        apply (called_for_cons _ _ p (mapOpt_at (ranges w)));
          [apply mapOpt_at_table | | apply called_for_nil].
        unfold call_of. cbn [inv_plugins inv_args].
        by destruct (local_call_for G d dstDir p _).
    + destruct Hstep as [s2 ->]. apply IH.
Qed.

(** X9.  The walk of a job over a directory of the repository calls the
    toolchain for the visited .proto files that are not skipped, in the
    order of the walk, once each: with [go], or [go,gogrpc] for a job with
    the grpc flag; with the protobuf sources and the repository root as
    search paths; with source-relative paths, override options and, for a
    file of the annotate set only, [annotate_code] as options; with the
    staging directory as output directory and the file's path relative to
    the repository root.  The override options are built anew for each
    call: each time they list the override table, in an order of their
    own.  The calls made are those for an initial part of the files, and
    for all of them when the walk returns. *)
Theorem local_calls_in_walk_order (d : Job) (dstDir sub : Path) (w : World) :
  let srcDir := filepath.Join (repoRoot G) sub in
  let pass := Walk srcDir (localFn G d dstDir srcDir) ∅ w in
  let planned := List.filter (generated G d) (filepath.Walk srcDir (fs w)) in
  ∃ new done,
    protoc_log pass.1 = protoc_log w ++ new ∧
    done `prefix_of` planned ∧
    called_for (local_call_for G d dstDir) new done ∧
    (∀ subDirs, pass.2 = Ok subDirs → done = planned).
Proof.
  intros srcDir pass planned. unfold pass, Walk.
  apply foldM_localFn_calls, Forall_forall. intros p Hp%Walk_prefix.
  split; [|done]. etrans; [|exact Hp]. by exists sub.
Qed.

(** ** Legacy directories and the option string *)

(** X10.  A path whose string matches the legacy expression hides all
    that is below it: the callback of a job's walk, on any path at or
    below it, returns at once with the world and the sub-directories it
    was given. *)
Theorem legacy_directory_hides_its_tree
  (d : Job) (dstDir srcDir p rest : Path) (subDirs : gset Path) (w : World) :
  regexp.MatchString excludeRx (filepath.String p) = true →
  localFn G d dstDir srcDir subDirs (p ++ rest) w = (w, Ok subDirs).
Proof.
  intros Hm. assert (Hp : p ≠ []) by (by intros ->).
  destruct (String_below p rest Hp) as [t Ht].
  unfold localFn. rewrite Ht, (MatchString_app _ _ t Hm), orb_true_r. done.
Qed.

(** X11.  Every call of [protoMapOpt] returns, having ranged over the
    map once, a string that, split at its commas, is the override table:
    one [M<file>=<package>] for each entry and each entry once, in the
    order in which that call ranged over the map. *)
Theorem protoMapOpt_lists_every_override (w : World) :
  ∃ mapOpt, protoMapOpt w = (count_range w, Ok mapOpt) ∧
            strings.Split mapOpt "," ≡ₚ map override_option protoPackages.
Proof. exists (mapOpt_at (ranges w)). split; [done | apply mapOpt_at_table]. Qed.

(** ** A run in diff mode *)

Lemma keeps_quiet {A} dir fs0 (m : M A) :
  (∀ w, fs (m w).1 = fs w) → keeps_outside dir fs0 m.
Proof. intros Hq w Hw. by rewrite Hq. Qed.

Lemma keeps_bind {A B} dir fs0 (m : M A) (k : A → M B) :
  keeps_outside dir fs0 m → (∀ a, keeps_outside dir fs0 (k a)) →
  keeps_outside dir fs0 (m ≫= k).
Proof.
  intros Hm Hk w Hw. rewrite bind_run. specialize (Hm w Hw).
  destruct (m w) as [w1 [a|e]]; [by apply Hk | done].
Qed.

Lemma keeps_foldM {S A} dir fs0 (f : S → A → M S) l :
  (∀ s x, keeps_outside dir fs0 (f s x)) → ∀ s, keeps_outside dir fs0 (foldM f s l).
Proof.
  intros Hf. induction l as [|x l IH]; intros s; cbn [foldM].
  - by apply keeps_quiet.
  - apply keeps_bind; [apply Hf | apply IH].
Qed.

Lemma keeps_Walk {S} dir fs0 root (fn : S → Path → M S) s :
  (∀ s x, keeps_outside dir fs0 (fn s x)) → keeps_outside dir fs0 (Walk root fn s).
Proof. intros Hf w. unfold Walk. by apply keeps_foldM. Qed.

Lemma keeps_protoc dir fs0 plugins front opts file :
  toolchain_confined dir →
  keeps_outside dir fs0
    (protoc G plugins
       (front ++ ["--go_out=" +:+ opts +:+ ":" +:+ filepath.String dir; file])).
Proof.
  intros Hconf w Hw q Hq. unfold protoc. cbv zeta.
  rewrite <- (Hw q Hq).
  rewrite <- (Hconf plugins ("protoc" :: ("--plugin=protoc-gen-go=" +:+ argv0 G) :: front)
                opts file (fs w) q Hq).
  by destruct (cmd_err _).
Qed.

Lemma chain_elem (pre k rest : Path) :
  k ≠ [] → k `prefix_of` rest → pre ++ k ∈ chain pre rest.
Proof.
  revert pre k. induction rest as [|c rest IH]; intros pre k Hne Hk.
  - by apply prefix_nil_inv in Hk.
  - destruct k as [|c' k]; [done|].
    apply prefix_cons_inv_1 in Hk as Hc. subst c'.
    apply prefix_cons_inv_2 in Hk. cbn [chain].
    destruct k as [|c' k]; [left|].
    right. rewrite (cons_middle c pre), app_assoc. by apply IH.
Qed.

Lemma prefix_removelast (q p : Path) :
  q `prefix_of` p → q ≠ p → q `prefix_of` removelast p.
Proof.
  intros [k ->] Hne. destruct (decide (k = [])) as [->|Hk].
  - by rewrite app_nil_r in Hne.
  - rewrite removelast_app by done. by apply prefix_app_r.
Qed.

(** [os.MkdirAll] towards a place below [dir] makes nothing outside
    [dir] when the directories above [dir] exist. *)
Lemma MkdirAll_outside dir fs0 (p e : Path) fs1 fs2 :
  p `prefix_of` e → dir `prefix_of` e → above_exist dir fs0 →
  outside dir fs0 fs1 → os.MkdirAll p fs1 = Ok fs2 → outside dir fs0 fs2.
Proof.
  intros Hp Hdir Habove Hout Hmk q Hq.
  apply MkdirAll_from_Ok in Hmk as [_ Hframe].
  destruct (Hframe q) as [->|(Hin & Hnone & _)]; [by apply Hout|].
  rewrite (Hout q Hq) in Hnone.
  pose proof (chain_longer _ _ _ Hin) as Hlen.
  apply chain_prefix in Hin. cbn [app] in Hin.
  assert (Hqe : q `prefix_of` e) by (by etrans).
  destruct (prefix_weak_total _ _ _ Hqe Hdir) as [Hqd|Hdq]; [|done].
  rewrite Habove in Hnone; [done|].
  apply (chain_elem [] q).
  - intros ->. simpl in Hlen. lia.
  - apply prefix_removelast; [done|]. intros ->. by apply Hq.
Qed.

Lemma keeps_MkdirAll dir fs0 (p e : Path) :
  p `prefix_of` e → dir `prefix_of` e → above_exist dir fs0 →
  keeps_outside dir fs0 (check_fs (os.MkdirAll p)).
Proof.
  intros Hp Hdir Habove w Hw. unfold check_fs.
  destruct (os.MkdirAll p (fs w)) as [fs2|err] eqn:Hmk; [|done].
  exact (MkdirAll_outside dir fs0 p e (fs w) fs2 Hp Hdir Habove Hw Hmk).
Qed.

Lemma keeps_WriteFile dir fs0 (p : Path) b :
  dir `prefix_of` p → keeps_outside dir fs0 (check_fs (os.WriteFile p b)).
Proof.
  intros Hp w Hw. unfold check_fs.
  destruct (os.WriteFile p b (fs w)) as [fs2|err] eqn:Hwr; [|done].
  apply WriteFile_Ok in Hwr as [-> _]. intros q Hq. cbn [fst fs set_fs].
  rewrite lookup_insert_ne by (by intros <-). by apply Hw.
Qed.

Lemma keeps_copyFile dir fs0 (dstPath srcPath : Path) :
  dir `prefix_of` dstPath → above_exist dir fs0 →
  keeps_outside dir fs0 (copyFile dstPath srcPath).
Proof.
  intros Hdst Habove w Hw.
  destruct (copyFile dstPath srcPath w) as [w' r] eqn:Hcopy. cbn [fst].
  apply copyFile_any in Hcopy as [->|(fs1 & Hmk & Hw')]; [done|].
  assert (Hfs1 : outside dir fs0 fs1).
  { exact (MkdirAll_outside dir fs0 _ dstPath (fs w) fs1
             (removelast_prefix dstPath) Hdst Habove Hw Hmk). }
  destruct Hw' as [->|(c & _ & ->)]; [done|]. intros q Hq.
  rewrite lookup_insert_ne by (by intros <-). by apply Hfs1.
Qed.

Lemma keeps_syncFn dir fs0 dstDir srcDir u p :
  run G = false → keeps_outside dir fs0 (syncFn G dstDir srcDir u p).
Proof.
  intros Hrun. apply keeps_quiet. intros w. unfold syncFn, check_Rel.
  destruct (_ && _); [done|]. run_binds.
  destruct (filepath.Rel srcDir p); [|done]. by rewrite Hrun.
Qed.

Lemma keeps_localFn dir fs0 d srcDir subDirs p :
  toolchain_confined dir →
  keeps_outside dir fs0 (localFn G d dir srcDir subDirs p).
Proof.
  intros Hconf. unfold localFn.
  destruct (_ || _); [by apply keeps_quiet|].
  apply keeps_bind; [by apply keeps_quiet|]. intros rel.
  apply keeps_bind; [by apply keeps_quiet|]. intros srel.
  case_decide; [by apply keeps_quiet|].
  apply keeps_bind; [by apply keeps_quiet|]. intros mapOpt.
  apply keeps_bind; [|intros; by apply keeps_quiet].
  apply (keeps_protoc dir fs0 _ ["-I" +:+ path_Join [protoRoot G; "src"];
                                 "-I" +:+ filepath.String (repoRoot G)]).
  exact Hconf.
Qed.

Lemma keeps_gen_test dir fs0 d subDirs :
  keeps_outside dir fs0 (gen_test G dir d subDirs).
Proof.
  unfold gen_test. case_decide; [|by apply keeps_quiet].
  apply keeps_bind; [by apply keeps_quiet|]. intros ranged.
  apply keeps_bind; [by apply keeps_quiet|]. intros b.
  apply keeps_WriteFile. by apply prefix_app_r.
Qed.

Lemma keeps_generateLocalDir dir fs0 d :
  toolchain_confined dir → above_exist dir fs0 →
  keeps_outside dir fs0 (generateLocalDir G dir d).
Proof.
  intros Hconf Habove. unfold generateLocalDir.
  apply keeps_bind; [by apply (keeps_MkdirAll dir fs0 dir dir)|]. intros _.
  apply keeps_bind; [|intros; apply keeps_gen_test].
  apply keeps_Walk. intros. by apply keeps_localFn.
Qed.

Lemma keeps_generateRemoteFiles dir fs0 :
  toolchain_confined dir → keeps_outside dir fs0 (generateRemoteFiles G dir).
Proof.
  intros Hconf. unfold generateRemoteFiles, forM. apply keeps_foldM.
  intros _ f. apply keeps_bind; [by apply keeps_quiet|]. intros mapOpt.
  apply (keeps_protoc dir fs0 _ ["-I" +:+ path_Join [protoRoot G; f.1]]).
  exact Hconf.
Qed.

Lemma below_empty (dir q : Path) (fs0 : FS) :
  filepath.below dir fs0 = ∅ → dir `prefix_of` q → fs0 !! q = None.
Proof.
  intros Hempty Hq.
  rewrite (below_lookup dir fs0 ∅); [apply lookup_empty | | done].
  rewrite Hempty. unfold filepath.below. by rewrite map_filter_empty.
Qed.

(** A pass that stages in a fresh directory and leaves everything
    outside it alone ends, once the staging directory is removed, with
    the tree it started from. *)
Lemma staged_pass_restores (body : Path → M unit) random w :
  filepath.below (staging G random) (fs w) = ∅ →
  keeps_outside (staging G random) (fs w) (body (staging G random)) →
  fs ((tmpDir ← TempDir G random; defer (RemoveAll tmpDir) (body tmpDir)) w).1 = fs w.
Proof.
  intros Hfresh Hbody. rewrite bind_run. unfold TempDir, os.TempDir.
  fold (staging G random).
  destruct (fs w !! staging G random); [done|].
  destruct (os.is_dir (fs w) (repoRoot G)); [|done].
  unfold defer.
  set (w1 := set_fs w (<[staging G random := Dir]> (fs w))).
  assert (Hw1 : outside (staging G random) (fs w) (fs w1)).
  { intros q Hq. cbn [w1 fs set_fs]. by rewrite lookup_insert_ne by (by intros <-). }
  specialize (Hbody w1 Hw1).
  destruct (body (staging G random) w1) as [w2 r]. cbn [fst] in *.
  apply map_eq. intros q.
  destruct (decide (staging G random `prefix_of` q)) as [Hq|Hq].
  - rewrite (below_empty _ _ _ Hfresh Hq). by apply RemoveAll_gone.
  - rewrite <- (Hbody q Hq). unfold RemoveAll, os.RemoveAll. cbn [fs set_fs].
    rewrite map_lookup_filter. destruct (fs w2 !! q) as [n|]; [|done].
    cbn. by rewrite option_guard_True.
Qed.

Lemma above_staging random fs0 :
  Forall (λ q, fs0 !! q = Some Dir) (chain [] (repoRoot G)) →
  above_exist (staging G random) fs0.
Proof.
  intros Hall q. unfold staging, filepath.Dir. rewrite removelast_last.
  rewrite Forall_forall in Hall. apply Hall.
Qed.




(** X15.  A run in diff mode leaves the tree as it found it, whether it
    returns or panics, when the toolchain writes only into the directory
    it is given, the two staging names are free, and the repository root
    and the directories above it exist. *)
Theorem diff_mode_restores_the_tree (random1 random2 : string) (w : World) :
  run G = false →
  toolchain_confined (staging G random1) →
  toolchain_confined (staging G random2) →
  Forall (λ q, fs w !! q = Some Dir) (chain [] (repoRoot G)) →
  filepath.below (staging G random1) (fs w) = ∅ →
  filepath.below (staging G random2) (fs w) = ∅ →
  fs (main G random1 random2 w).1 = fs w.
Proof.
  intros Hrun Hconf1 Hconf2 Habove Hfresh1 Hfresh2.
  unfold main. case_decide; [done|]. rewrite bind_run.
  assert (Hlocal : fs (generateLocalProtos G random1 w).1 = fs w).
  { apply (staged_pass_restores
             (λ tmpDir, forM dirs (generateLocalDir G tmpDir);;
                        syncOutput G (repoRoot G) tmpDir)); [done|].
    apply keeps_bind.
    - apply keeps_foldM. intros _ d.
      apply keeps_generateLocalDir; [done | by apply above_staging].
    - intros _. apply keeps_Walk. intros. by apply keeps_syncFn. }
  destruct (generateLocalProtos G random1 w) as [w1 [[]|e]]; cbn [fst] in *; [|done].
  rewrite <- Hlocal in *.
  apply (staged_pass_restores
           (λ tmpDir, generateRemoteFiles G tmpDir;; copy_field_mask tmpDir;;
                      syncOutput G (repoRoot G)
                        (filepath.Join tmpDir (filepath.FromSlash (modulePath G)))));
    [done|].
  apply keeps_bind; [by apply keeps_generateRemoteFiles|]. intros _.
  apply keeps_bind.
  - apply keeps_copyFile; [by apply prefix_app_r | by apply above_staging].
  - intros _. apply keeps_Walk. intros. by apply keeps_syncFn.
Qed.

End with_externals.

(** ** Plugin mode *)

Section with_names.
Import protoreflect protogen plugin plugin_terms plugin_facts.
Context `{!Names}.

(** X12.  The plugin names a job hands over in RUN_AS_PROTOC_PLUGIN are
    the names the plugin mode knows: run as the plugin with them, the
    process runs the Go generator (and the field-number extractor) on
    every file to generate and then, for a job with the grpc flag only,
    the gRPC generator on every file to generate. *)
Theorem job_plugins_reach_their_backends
  (modulePath : string) (d : Job) (gen : Plugin) :
  response (run_plugins modulePath (local_plugins d) gen)
  = response gen ++
    by_plugin modulePath (if grpcPlugin d then ["go"; "gogrpc"] else ["go"])
      (Files gen).
Proof.
  rewrite run_plugins_by_plugin. unfold local_plugins. by destruct (grpcPlugin d).
Qed.

Lemma dispatch_markers modulePath plugin gen file :
  GenerateVersionMarkers (dispatch modulePath plugin gen file)
  = if decide (plugin = "go") then false else GenerateVersionMarkers gen.
Proof.
  unfold dispatch. case_decide.
  - by rewrite generateFieldNumbers_constants.
  - by case_decide.
Qed.

Lemma fold_files_markers modulePath plugin files gen :
  GenerateVersionMarkers
    (fold_left (λ gen file, if Generate file
                            then dispatch modulePath plugin gen file else gen)
       files gen)
  = if bool_decide (plugin = "go") && existsb Generate files
    then false else GenerateVersionMarkers gen.
Proof.
  revert gen. induction files as [|file files IH]; intros gen; cbn [fold_left existsb].
  - by rewrite andb_false_r.
  - rewrite IH. destruct (Generate file); cbn [orb].
    + rewrite dispatch_markers, andb_true_r.
      case_bool_decide; [rewrite decide_True by done | rewrite decide_False by done];
        by destruct (existsb Generate files).
    + done.
Qed.

(** X13.  A run of the plugin loop never changes the list of files of the
    request, and it leaves the version markers of the Go generator switched
    off exactly when the Go generator ran: when [go] is among the names and
    some file is marked for generation.  Otherwise the setting is the one
    the request came with. *)
Theorem run_plugins_keeps_files_and_clears_markers
  (modulePath plugins : string) (gen : Plugin) :
  Files (run_plugins modulePath plugins gen) = Files gen ∧
  GenerateVersionMarkers (run_plugins modulePath plugins gen)
  = if existsb (λ plugin, bool_decide (plugin = "go")) (strings.Split plugins ",")
       && existsb Generate (Files gen)
    then false else GenerateVersionMarkers gen.
Proof.
  unfold run_plugins. generalize (strings.Split plugins ","). intros names.
  revert gen. induction names as [|plugin names IH]; intros gen;
    cbn [fold_left existsb]; [done|].
  destruct (fold_files modulePath plugin (Files gen) gen) as [HF _]. simpl in HF.
  match goal with |- context [fold_left _ names ?g] => destruct (IH g) as [HF' HM'] end.
  rewrite HF', HM', HF, fold_files_markers. split; [done|].
  destruct (bool_decide (plugin = "go")), (existsb Generate (Files gen)),
    (existsb _ names); done.
Qed.

(** ** The name of the field-number file *)

Lemma upto_slash_cons a r :
  a ≠ "/"%char → path.upto_slash (String a r) = String a (path.upto_slash r).
Proof. intros Ha. by destruct a as [[] [] [] [] [] [] [] []]. Qed.

Lemma strip_slashes_cons a r :
  a ≠ "/"%char → path.strip_slashes (String a r) = String a r.
Proof. intros Ha. by destruct a as [[] [] [] [] [] [] [] []]. Qed.

Lemma has_byte_app a s t :
  has_byte a (s +:+ t) = has_byte a s || has_byte a t.
Proof.
  induction s as [|b s IH]; [done|].
  rewrite app_String. cbn [has_byte]. by rewrite IH, orb_assoc.
Qed.

Lemma upto_slash_rev_app n acc :
  has_byte "/" n = false →
  path.upto_slash (String.rev_app n acc) = String.rev_app n (path.upto_slash acc).
Proof.
  revert acc. induction n as [|a n IH]; intros acc; [done|].
  cbn [has_byte String.rev_app]. intros [Ha Hn]%orb_false_iff.
  apply bool_decide_eq_false_1 in Ha.
  rewrite IH by done. by rewrite upto_slash_cons by (by intros ->).
Qed.

Lemma rev_app_head n acc :
  n ≠ "" → has_byte "/" n = false →
  ∃ a r, String.rev_app n acc = String a r ∧ a ≠ "/"%char.
Proof.
  revert acc. induction n as [|a n IH]; intros acc Hne; [done|].
  cbn [has_byte String.rev_app]. intros [Ha Hn]%orb_false_iff.
  apply bool_decide_eq_false_1 in Ha.
  destruct (decide (n = "")) as [->|Hn'].
  - exists a, acc. split; [done | by intros ->].
  - by apply IH.
Qed.

(** [path.Base] of a directory, a slash and a name is the name. *)
Lemma Base_of_name dir n :
  n ≠ "" → has_byte "/" n = false → path.Base (dir +:+ "/" +:+ n) = n.
Proof.
  intros Hne Hn. unfold path.Base.
  rewrite decide_False by (by destruct dir).
  unfold String.rev. rewrite rev_app_append.
  change ("/" +:+ n) with (String "/" n). cbn [String.rev_app].
  destruct (rev_app_head n (String "/" (String.rev_app dir "")) Hne Hn)
    as (a & r & Hr & Ha).
  rewrite Hr, (strip_slashes_cons a r Ha), <- Hr.
  rewrite decide_False by (by rewrite Hr).
  rewrite upto_slash_rev_app by done. apply rev_rev.
Qed.

Lemma TrimSuffix_dot_proto name : strings.TrimSuffix (name +:+ ".proto") ".proto" = name.
Proof.
  unfold strings.TrimSuffix, strings.HasSuffix, String.rev.
  rewrite rev_app_append. cbn.
  rewrite !decide_True by done.
  replace (strings.HasPrefix (String.rev_app name "") "") with true
    by (by destruct (String.rev_app name "")).
  apply rev_rev.
Qed.

(** X14.  For a description file of the package google.protobuf whose
    path is a directory, a slash and a name that ends in .proto, the
    extractor adds exactly one generated file, named by the base name
    alone: [<module>/internal/fieldnum/<name>_gen.go], with the import path
    [<module>/internal/fieldnum].  The directory of the description file
    plays no part. *)
Theorem fieldnum_file_is_named_by_base_name
  (modulePath dir name : string) (gen : Plugin) (file : File) :
  Desc_Package file = "google.protobuf" →
  Desc_Path file = dir +:+ "/" +:+ name +:+ ".proto" →
  has_byte "/" name = false →
  ∃ g, response (generateFieldNumbers modulePath gen file)
       = response gen ++ [NewGeneratedFile g] ∧
       filename g = modulePath +:+ "/internal/fieldnum/" +:+ name +:+ "_gen.go" ∧
       goImportPath g = modulePath +:+ "/internal/fieldnum".
Proof.
  intros Hpkg Hpath Hname. rewrite generateFieldNumbers_constants.
  unfold fieldnum_emitted. rewrite decide_True by done.
  eexists. split; [reflexivity|]. split; [|reflexivity].
  unfold fieldnum_file. cbn [filename]. rewrite Hpath.
  rewrite Base_of_name, TrimSuffix_dot_proto.
  - by rewrite !app_assoc_s.
  - by destruct name.
  - by rewrite has_byte_app, Hname.
Qed.

End with_names.

(** ** The toy compiler that works inside its output directory *)

Lemma Split_go_nonempty sep cur s : strings.Split_go sep cur s ≠ [].
Proof.
  revert cur. induction s as [|a s IH]; intros cur; cbn [strings.Split_go]; [done|].
  case_decide; [done | apply IH].
Qed.

Lemma last_cons_nonempty {A} (x : A) l d : l ≠ [] → List.last (x :: l) d = List.last l d.
Proof. by destruct l. Qed.

Lemma last_Split_go sep cur a b :
  has_byte sep b = false →
  List.last (strings.Split_go sep cur (a +:+ String sep b)) "" = b.
Proof.
  intros Hb. revert cur. induction a as [|c a IH]; intros cur.
  - change ("" +:+ String sep b) with (String sep b). cbn [strings.Split_go].
    rewrite decide_True by done.
    rewrite last_cons_nonempty by apply Split_go_nonempty.
    rewrite <- (app_empty_r b) at 1. rewrite Split_go_no_sep by done.
    cbn [strings.Split_go List.last].
    change (String.rev_app b "") with (String.rev b). apply rev_rev.
  - rewrite app_String. cbn [strings.Split_go]. case_decide.
    + rewrite last_cons_nonempty by apply Split_go_nonempty. apply IH.
    + apply IH.
Qed.

Lemma after_last_app sep a b :
  has_byte sep b = false → sample_world.after_last sep (a +:+ String sep b) = b.
Proof. apply last_Split_go. Qed.

Lemma chain_pre pre rest (q : Path) : q ∈ chain pre rest → pre `prefix_of` q.
Proof.
  revert pre. induction rest as [|c rest IH]; intros pre; cbn [chain].
  - by intros ?%elem_of_nil.
  - intros [->|Hq]%elem_of_cons; [by apply prefix_app_r|].
    etrans; [|by apply IH]. by apply prefix_app_r.
Qed.

(** The toy compiler changes nothing outside a directory whose string
    has no colon and splits back into its elements. *)
Lemma boxed_confined (dir : Path) :
  has_byte ":" (filepath.String dir) = false →
  filepath.FromSlash (filepath.String dir) = dir →
  @toolchain_confined sample_boxed.boxed dir.
Proof.
  intros Hcolon Hslash plugins front opts file fs0 q Hq.
  change (@protoc_exec sample_boxed.boxed) with sample_boxed.boxed_protoc.
  unfold sample_boxed.boxed_protoc.
  set (g := "--go_out=" +:+ opts +:+ ":" +:+ filepath.String dir).
  replace (front ++ [g; file]) with ((front ++ [g]) ++ [file])
    by (by rewrite <- app_assoc).
  cbv zeta. rewrite !last_last, removelast_last, last_last.
  assert (Hdir : filepath.FromSlash (sample_world.after_last ":" g) = dir).
  { replace g with (("--go_out=" +:+ opts) +:+ String ":" (filepath.String dir))
      by (by rewrite app_assoc_s).
    by rewrite after_last_app. }
  rewrite Hdir.
  destruct (os.MkdirAll_from _ _ _) as [fs1|e] eqn:Hmk; [|done].
  apply MkdirAll_from_Ok in Hmk as [_ Hframe].
  assert (Hfs1 : fs1 !! q = fs0 !! q).
  { destruct (Hframe q) as [?|(Hin & _)]; [done|].
    apply chain_pre in Hin. by destruct Hq. }
  destruct (os.WriteFile _ _ _) as [fs2|e] eqn:Hwr; [|done].
  apply WriteFile_Ok in Hwr as [-> _]. cbn [cmd_fs].
  rewrite lookup_insert_ne; [done|]. intros <-. apply Hq. by apply prefix_app_r.
Qed.

(** ** The theorems at the sample worlds *)

Import sample sample_world.

Lemma copyFile_returned_witness :
  (∃ c, fs (start staged) !! ["r"; "tmp1"; "x"; "a.pb.go"] = Some (File c) ∧
        fs (copyFile ["r"; "x"; "a.pb.go"] ["r"; "tmp1"; "x"; "a.pb.go"] (start staged)).1
          !! ["r"; "x"; "a.pb.go"] = Some (File c)) ∧
  fs (copyFile ["r"; "x"; "a.pb.go"] ["r"; "tmp1"; "x"; "a.pb.go"] (start staged)).1
    !! ["r"; "tmp1"; "x"; "a.pb.go"]
  = fs (start staged) !! ["r"; "tmp1"; "x"; "a.pb.go"].
Proof.
  destruct (copyFile_returned ["r"; "x"; "a.pb.go"] ["r"; "tmp1"; "x"; "a.pb.go"]
              (start staged)
              (copyFile ["r"; "x"; "a.pb.go"] ["r"; "tmp1"; "x"; "a.pb.go"]
                 (start staged)).1) as (Hdst & Hsrc & _).
  - apply returned. vm_compute. reflexivity.
  - split; [exact Hdst | exact Hsrc].
Defined.

Lemma copyFile_without_source_witness :
  copyFile ["r"; "x"; "a.pb.go"] ["r"; "tmp1"; "x"] (start staged)
  = (start staged, Panic (PathError "read" ["r"; "tmp1"; "x"])).
Proof.
  rewrite (copyFile_without_source ["r"; "x"; "a.pb.go"] ["r"; "tmp1"; "x"] (start staged)).
  - vm_compute. reflexivity.
  - intros c. vm_compute. intros Heq. discriminate Heq.
Defined.

Lemma copyFile_twice_witness :
  copyFile ["r"; "x"; "new"; "a.pb.go"] ["r"; "tmp1"; "x"; "a.pb.go"]
    (copyFile ["r"; "x"; "new"; "a.pb.go"] ["r"; "tmp1"; "x"; "a.pb.go"] (start staged)).1
  = ((copyFile ["r"; "x"; "new"; "a.pb.go"] ["r"; "tmp1"; "x"; "a.pb.go"]
        (start staged)).1, Ok tt).
Proof.
  apply (copyFile_twice ["r"; "x"; "new"; "a.pb.go"] ["r"; "tmp1"; "x"; "a.pb.go"]
           (start staged)).
  apply returned. vm_compute. reflexivity.
Defined.

Lemma copyFile_changes_only_towards_destination_witness :
  ¬ ["r"; "go.mod"] `prefix_of` ["r"; "x"; "new"; "a.pb.go"] ∧
  fs (copyFile ["r"; "x"; "new"; "a.pb.go"] ["r"; "tmp1"; "x"; "a.pb.go"] (start staged)).1
    !! ["r"; "go.mod"]
  = fs (start staged) !! ["r"; "go.mod"].
Proof.
  assert (Hq : ¬ ["r"; "go.mod"] `prefix_of` ["r"; "x"; "new"; "a.pb.go"]).
  { refine (bool_decide_unpack _ _). vm_compute. exact I. }
  split; [exact Hq|].
  exact (copyFile_changes_only_towards_destination
           ["r"; "x"; "new"; "a.pb.go"] ["r"; "tmp1"; "x"; "a.pb.go"] (start staged)
           ["r"; "go.mod"] Hq).
Defined.

Lemma syncOutput_applies_every_staged_file_witness :
  run (G true) = true ∧
  is_output (filepath.Join ["r"; "tmp1"] ["x"; "y"; "b.meta"]) = true ∧
  fs (start staged) !! filepath.Join ["r"; "tmp1"] ["x"; "y"; "b.meta"]
    = Some (File "new b") ∧
  fs (syncOutput (G true) ["r"] ["r"; "tmp1"] (start staged)).1
    !! filepath.Join ["r"] ["x"; "y"; "b.meta"] = Some (File "new b") ∧
  "# " +:+ filepath.ToSlash ["x"; "y"; "b.meta"]
    ∈ stdout (syncOutput (G true) ["r"] ["r"; "tmp1"] (start staged)).1.
Proof.
  split; [reflexivity|]. split; [vm_compute; reflexivity|].
  split; [vm_compute; reflexivity|].
  apply (syncOutput_applies_every_staged_file (G true) ["r"] ["r"; "tmp1"]
           ["x"; "y"; "b.meta"] "new b" (start staged)
           (syncOutput (G true) ["r"] ["r"; "tmp1"] (start staged)).1).
  - reflexivity.
  - apply returned. vm_compute. reflexivity.
  - refine (bool_decide_unpack _ _). vm_compute. exact I.
  - exists Dir. vm_compute. reflexivity.
  - vm_compute. reflexivity.
  - vm_compute. reflexivity.
Defined.

Lemma syncOutput_changes_only_destinations_witness :
  staged_apart ["r"] ["r"; "tmp1"] (fs (start staged)) ∧
  Forall (λ t, ¬ ["r"; "go.mod"] `prefix_of` t)
    (sync_targets ["r"] ["r"; "tmp1"] (fs (start staged))) ∧
  filepath.below ["r"; "tmp1"] (fs (syncOutput (G true) ["r"] ["r"; "tmp1"] (start staged)).1)
  = filepath.below ["r"; "tmp1"] (fs (start staged)) ∧
  fs (syncOutput (G true) ["r"] ["r"; "tmp1"] (start staged)).1 !! ["r"; "go.mod"]
  = fs (start staged) !! ["r"; "go.mod"].
Proof.
  assert (Hapart : staged_apart ["r"] ["r"; "tmp1"] (fs (start staged))).
  { refine (bool_decide_unpack _ _). vm_compute. exact I. }
  assert (Hq : Forall (λ t, ¬ ["r"; "go.mod"] `prefix_of` t)
                 (sync_targets ["r"] ["r"; "tmp1"] (fs (start staged)))).
  { refine (bool_decide_unpack _ _). vm_compute. exact I. }
  split; [exact Hapart|]. split; [exact Hq|].
  exact (syncOutput_changes_only_destinations (G true) ["r"] ["r"; "tmp1"] (start staged)
           ["r"; "go.mod"] Hapart Hq).
Defined.

Lemma walk_finds_directories_of_proto_files_witness :
  ["keep"] ∈ ({[ ["keep"]; ["sub"] ]} : gset Path)
  ↔ ∃ p srel, p ∈ filepath.Walk ["r"; "x"; "testdata"] (fs (start repo_x)) ∧
              strings.HasSuffix (filepath.String p) ".proto" = true ∧
              regexp.MatchString excludeRx (filepath.String p) = false ∧
              filepath.Rel ["r"; "x"; "testdata"] p = Some srel ∧
              ["keep"] = filepath.Dir srel.
Proof.
  apply (walk_finds_directories_of_proto_files (G false) job_x ["r"; "tmp1"]
           ["r"; "x"; "testdata"] (start repo_x)
           (Walk ["r"; "x"; "testdata"]
              (localFn (G false) job_x ["r"; "tmp1"] ["r"; "x"; "testdata"]) ∅
              (start repo_x)).1
           {[ ["keep"]; ["sub"] ]}).
  apply returned. vm_compute. reflexivity.
Defined.

Lemma legacy_directory_hides_its_tree_witness :
  regexp.MatchString excludeRx
    (filepath.String ["r"; "internal"; "testprotos"; "legacy";
                      "proto2_20160225_2fc053c5"; "test"]) = true ∧
  localFn (G false) job_go ["r"; "tmp1"] ["r"; "internal"; "testprotos"] ∅
    (["r"; "internal"; "testprotos"; "legacy"; "proto2_20160225_2fc053c5"; "test"]
     ++ ["test.proto"]) (start repo)
  = (start repo, Ok ∅).
Proof.
  assert (Hrx : regexp.MatchString excludeRx
                  (filepath.String ["r"; "internal"; "testprotos"; "legacy";
                                    "proto2_20160225_2fc053c5"; "test"]) = true).
  { vm_compute. reflexivity. }
  split; [exact Hrx|].
  exact (legacy_directory_hides_its_tree (G false) job_go ["r"; "tmp1"]
           ["r"; "internal"; "testprotos"]
           ["r"; "internal"; "testprotos"; "legacy"; "proto2_20160225_2fc053c5"; "test"]
           ["test.proto"] ∅ (start repo) Hrx).
Defined.

Lemma fieldnum_file_is_named_by_base_name_witness :
  ∃ g, protogen.response
         (plugin.generateFieldNumbers "google.golang.org/protobuf" (request [wkt]) wkt)
       = protogen.response (request [wkt]) ++ [protogen.NewGeneratedFile g] ∧
       protogen.filename g = "google.golang.org/protobuf/internal/fieldnum/x_gen.go" ∧
       protogen.goImportPath g = "google.golang.org/protobuf/internal/fieldnum".
Proof.
  apply (fieldnum_file_is_named_by_base_name "google.golang.org/protobuf"
           "google/protobuf" "x" (request [wkt]) wkt).
  - reflexivity.
  - reflexivity.
  - reflexivity.
Defined.


Lemma diff_mode_restores_the_tree_witness :
  run (G false) = false ∧
  Forall (λ q, fs (start repo) !! q = Some Dir) (chain [] (repoRoot (G false))) ∧
  filepath.below (staging (G false) "1") (fs (start repo)) = ∅ ∧
  filepath.below (staging (G false) "2") (fs (start repo)) = ∅ ∧
  fs (@main sample_boxed.boxed (G false) "1" "2" (start repo)).1 = fs (start repo).
Proof.
  assert (Habove : Forall (λ q, fs (start repo) !! q = Some Dir)
                     (chain [] (repoRoot (G false)))).
  { refine (bool_decide_unpack _ _). vm_compute. exact I. }
  assert (Hfree1 : filepath.below (staging (G false) "1") (fs (start repo)) = ∅).
  { refine (bool_decide_unpack _ _). vm_compute. exact I. }
  assert (Hfree2 : filepath.below (staging (G false) "2") (fs (start repo)) = ∅).
  { refine (bool_decide_unpack _ _). vm_compute. exact I. }
  split; [reflexivity|]. split; [exact Habove|].
  split; [exact Hfree1|]. split; [exact Hfree2|].
  apply (@diff_mode_restores_the_tree sample_boxed.boxed (G false) "1" "2" (start repo)).
  - reflexivity.
  - apply (boxed_confined ["r"; "tmp1"]); vm_compute; reflexivity.
  - apply (boxed_confined ["r"; "tmp2"]); vm_compute; reflexivity.
  - exact Habove.
  - exact Hfree1.
  - exact Hfree2.
Defined.

End extra_facts.
